(** * bun-merkle-tree: a shallow embedding of the Merkle tree core

    The development follows [src/utils/helpers.ts] (leaf and pair hashing),
    [src/utils/MerkleTree.ts] (the [MerkleTree] class) and the worker
    script [worker.ts] loaded by the helpers (the worker-side copies of
    the same loops).

    Conventions of the embedding:
    - a JavaScript string is a [string] holding its UTF-8 bytes, the
      bytes [hash.update] digests; its UTF-16 code units, which
      [Buffer.from(_, "hex")] reads, are computed from them by
      [JS.code_units]; a string with an unpaired surrogate has no such
      bytes and is not represented; a [Buffer] is a [list byte];
    - a value that may be [undefined] at run time is an [option];
    - an array index (a JavaScript number holding an integer) is a [Z];
    - a balance is an integer [Z], standing for the Number value nearest
      to it; fractional balances, [NaN] and the infinities are not
      represented;
    - the platform digest [createHash("sha256")...digest("hex")] is a
      section variable, instantiated afterwards with an executable SHA-256. *)

From Stdlib Require Import List Arith ZArith NArith Lia Bool String Ascii
  DecimalString.
From Stdlib.Strings Require Import Byte.
From Equations Require Import Equations.
Import ListNotations.

(* ===================================================================== *)
(** ** JavaScript primitives used by the sources *)
(* ===================================================================== *)

Module JS.

(** A run-time value of declared type [string] that may in fact be
    [undefined] (an array read out of range). *)
Definition value := option string.

Definition undefined : value := None.

(** String coercion performed by [+] and by template literals. *)
Definition toString (v : value) : string :=
  match v with
  | Some s => s
  | None => "undefined"%string
  end.

(** [a[i]] for an array [a] and an integral number [i]: reads out of
    range (negative included) yield [undefined], they do not throw. *)
Definition index {A : Type} (a : list A) (i : Z) : option A :=
  if (i <? 0)%Z then None else nth_error a (Z.to_nat i).

(** [a.length] as a number. *)
Definition length {A : Type} (a : list A) : Z := Z.of_nat (List.length a).

(** [x % y] on integral numbers: the sign follows the dividend. *)
Definition remainder (x y : Z) : Z := Z.rem x y.

(** [Math.floor(x / y)] on integral numbers with [y > 0]. *)
Definition floor_div (x y : Z) : Z := Z.div x y.

(** The Number value of a non-negative integer: the nearest number with
    53 significant bits, ties going to the even one. *)
Definition to_number (m : Z) : Z :=
  let bits := (Z.log2 m + 1)%Z in
  if (bits <=? 53)%Z then m
  else
    let shift := (bits - 53)%Z in
    let q := (m / 2 ^ shift)%Z in
    let r := (m mod 2 ^ shift)%Z in
    let half := (2 ^ (shift - 1))%Z in
    let q' := if (r <? half)%Z then q
              else if (half <? r)%Z then (q + 1)%Z
              else if Z.even q then q else (q + 1)%Z in
    (q' * 2 ^ shift)%Z.

Definition decimal (m : Z) : string := NilEmpty.string_of_int (Z.to_int m).

Definition count_digits (m : Z) : Z := Z.of_nat (String.length (decimal m)).

(** The significand with [k] digits that denotes the number [x] of [nd]
    digits, if there is one: the closer one of the two neighbours, the
    even one when they are as close. *)
Definition significand (x nd k : Z) : option Z :=
  let e := (nd - k)%Z in
  let lo := (x / 10 ^ e)%Z in
  let hi := (lo + 1)%Z in
  let denotes s := (to_number (s * 10 ^ e) =? x)%Z && (s <? 10 ^ k)%Z in
  match denotes lo, denotes hi with
  | true, false => Some lo
  | false, true => Some hi
  | true, true =>
      let below := (x - lo * 10 ^ e)%Z in
      let above := (hi * 10 ^ e - x)%Z in
      if (below <? above)%Z then Some lo
      else if (above <? below)%Z then Some hi
      else if Z.even lo then Some lo else Some hi
  | false, false => None
  end.

(** The shortest significand, trying [k], [k + 1], ... digits. *)
Fixpoint shortest (fuel : nat) (x nd k : Z) : Z * Z :=
  match fuel with
  | O => (x, nd)
  | S fuel' =>
      match significand x nd k with
      | Some s => (s, k)
      | None => shortest fuel' x nd (k + 1)%Z
      end
  end.

Fixpoint zeros (n : nat) : string :=
  match n with
  | O => EmptyString
  | S n' => String "0" (zeros n')
  end.

(** [Number::toString] for a positive integral number: the shortest
    digits that denote it, written out up to 21 digits and with an
    exponent beyond. *)
Definition positiveToString (x : Z) : string :=
  let nd := count_digits x in
  let '(s, k, n) :=
    if (to_number (10 ^ nd) =? x)%Z then (1%Z, 1%Z, (nd + 1)%Z)
    else let '(s, k) := shortest (Z.to_nat nd) x nd 1 in (s, k, nd) in
  if (n <=? 21)%Z then (decimal s ++ zeros (Z.to_nat (n - k)))%string
  else
    match decimal s with
    | String d rest =>
        (String d (match rest with
                   | EmptyString => EmptyString
                   | _ => String "." rest
                   end)
         ++ "e+" ++ decimal (n - 1))%string
    | EmptyString => EmptyString
    end.

(** [`${n}`] for the Number value of the integer [n]. *)
Definition numberToString (n : Z) : string :=
  if (n =? 0)%Z then "0"%string
  else
    let x := to_number (Z.abs n) in
    let body := if (2 ^ 1024 <=? x)%Z then "Infinity"%string
                else positiveToString x in
    if (n <? 0)%Z then String "-" body else body.

(** [xs.join(sep)]. *)
Definition join (sep : string) (xs : list string) : string :=
  String.concat sep xs.

(** Value of one hexadecimal digit, upper or lower case. *)
Definition hex_digit (c : ascii) : option N :=
  let n := N_of_ascii c in
  if (48 <=? n)%N && (n <=? 57)%N then Some (n - 48)%N
  else if (97 <=? n)%N && (n <=? 102)%N then Some (n - 87)%N
  else if (65 <=? n)%N && (n <=? 70)%N then Some (n - 55)%N
  else None.

Definition byte_of_nibbles (hi lo : N) : byte :=
  match Byte.of_N (16 * hi + lo) with
  | Some b => b
  | None => x00
  end.

(** *** The UTF-16 code units of a string *)

Definition is_continuation (b : ascii) : bool :=
  let n := N_of_ascii b in (128 <=? n)%N && (n <? 192)%N.

(** Number of bytes of the sequence a leading byte above 127 announces;
    0 for a byte that cannot lead. *)
Definition sequence_length (n : N) : nat :=
  if (n <? 192)%N then 0
  else if (n <? 224)%N then 2
  else if (n <? 240)%N then 3
  else if (n <? 248)%N then 4
  else 0.

Definition payload (b : ascii) : N := (N_of_ascii b mod 64)%N.

Definition replacement : N := 0xFFFD%N.

(** One unit for a code point of the basic plane, a surrogate pair for
    the others. *)
Definition units_of_code_point (cp : N) : list N :=
  if (cp <? 0x10000)%N then [cp]
  else [(0xD800 + (cp - 0x10000) / 1024)%N;
        (0xDC00 + (cp - 0x10000) mod 1024)%N].

(** The code units of the string with the UTF-8 bytes [s]. Bytes that
    form no sequence, which the bytes of a JavaScript string never
    contain, give the replacement character. *)
Fixpoint code_units (s : string) : list N :=
  match s with
  | EmptyString => []
  | String b0 s1 =>
      let n0 := N_of_ascii b0 in
      if (n0 <? 128)%N then n0 :: code_units s1
      else
        match sequence_length n0, s1 with
        | 2, String b1 s2 =>
            if is_continuation b1
            then ((n0 mod 32) * 64 + payload b1)%N :: code_units s2
            else replacement :: code_units s1
        | 3, String b1 (String b2 s3) =>
            if is_continuation b1 && is_continuation b2
            then (((n0 mod 16) * 64 + payload b1) * 64 + payload b2)%N
                   :: code_units s3
            else replacement :: code_units s1
        | 4, String b1 (String b2 (String b3 s4)) =>
            if is_continuation b1 && is_continuation b2
               && is_continuation b3
            then (units_of_code_point
                    ((((n0 mod 8) * 64 + payload b1) * 64 + payload b2) * 64
                     + payload b3)%N
                  ++ code_units s4)%list
            else replacement :: code_units s1
        | _, _ => replacement :: code_units s1
        end
  end.

(** The hexadecimal decoder looks a code unit up by its low byte. *)
Definition low_byte (unit : N) : ascii := ascii_of_N (unit mod 256).

(** The low bytes of the code units of [s], one character each. *)
Definition low_bytes (s : string) : string :=
  string_of_list_ascii (map low_byte (code_units s)).

(** Two characters per byte, up to the first pair that is not made of
    two hexadecimal digits; a trailing single character is dropped. *)
Fixpoint hex_pairs (s : string) : list byte :=
  match s with
  | String a (String b rest) =>
      match hex_digit a, hex_digit b with
      | Some hi, Some lo => byte_of_nibbles hi lo :: hex_pairs rest
      | _, _ => []
      end
  | _ => []
  end.

(** [Buffer.from(s, "hex")]: the code units of [s] are read two by two
    through their low bytes; decoding stops silently at the first pair
    that is not made of two hexadecimal digits when read so.  It never
    throws. *)
Definition Buffer_from_hex (s : string) : list byte :=
  hex_pairs (low_bytes s).

(** A string of characters below 128, each its own code unit. *)
Fixpoint all_ascii (s : string) : bool :=
  match s with
  | EmptyString => true
  | String b rest => (N_of_ascii b <? 128)%N && all_ascii rest
  end.

(** Does [s] begin with two hexadecimal digits? *)
Definition starts_with_hex_pair (s : string) : bool :=
  match s with
  | String a (String b _) =>
      match hex_digit a, hex_digit b with
      | Some _, Some _ => true
      | _, _ => false
      end
  | _ => false
  end.

(** [Buffer.from(s)] / [hash.update(s)] on a string: its UTF-8 bytes. *)
Definition utf8 (s : string) : list byte := list_byte_of_string s.

(** A digest in the sense of the data model: an even number of
    characters, all of them hexadecimal digits. *)
Fixpoint well_formed_hex (s : string) : bool :=
  match s with
  | EmptyString => true
  | String a (String b rest) =>
      match hex_digit a, hex_digit b with
      | Some _, Some _ => well_formed_hex rest
      | _, _ => false
      end
  | String _ EmptyString => false
  end.

(** The error taxonomy of the design, and the outcome of a call. *)
Inductive error : Type :=
| DecodeError
| IndexOutOfRange
| TaskFailure (message : string).

Inductive outcome (A : Type) : Type :=
| Returned (a : A)
| Thrown (e : error).

Arguments Returned {A} a.
Arguments Thrown {A} e.

End JS.

(* ===================================================================== *)
(** ** The platform digest: SHA-256 (FIPS 180-4), hexadecimal output *)
(* ===================================================================== *)

Module Sha256.

Local Open Scope N_scope.

Definition modulus : N := 0x100000000.

Definition add32 (a b : N) : N := (a + b) mod modulus.

Definition rotr (n x : N) : N :=
  N.lor (N.shiftr x n) (N.shiftl x (32 - n) mod modulus).

Definition shr (n x : N) : N := N.shiftr x n.

Definition not32 (x : N) : N := N.lxor x 0xffffffff.

Definition xor3 (a b c : N) : N := N.lxor (N.lxor a b) c.

Definition Ch (x y z : N) : N := N.lxor (N.land x y) (N.land (not32 x) z).

Definition Maj (x y z : N) : N :=
  xor3 (N.land x y) (N.land x z) (N.land y z).

Definition Sigma0 (x : N) : N := xor3 (rotr 2 x) (rotr 13 x) (rotr 22 x).
Definition Sigma1 (x : N) : N := xor3 (rotr 6 x) (rotr 11 x) (rotr 25 x).
Definition sigma0 (x : N) : N := xor3 (rotr 7 x) (rotr 18 x) (shr 3 x).
Definition sigma1 (x : N) : N := xor3 (rotr 17 x) (rotr 19 x) (shr 10 x).

(** The constants of the standard are derived from the first primes: the
    round constants are the first 32 bits of the fractional parts of
    their cube roots, the initial state those of their square roots. *)
Definition is_prime (n : N) : bool :=
  forallb (fun d => negb (n mod d =? 0))
          (map N.of_nat (seq 2 (N.to_nat n - 2))).

Definition primes : list N := filter is_prime (map N.of_nat (seq 2 310)).

(** Integer cube root, one bit at a time from the top. *)
Fixpoint cube_root (bits : nat) (n r : N) : N :=
  match bits with
  | O => r
  | S b =>
      let candidate := r + 2 ^ N.of_nat b in
      cube_root b n
        (if candidate * candidate * candidate <=? n then candidate else r)
  end.

Definition cube_root_fraction (p : N) : N :=
  cube_root 36 (p * 2 ^ 96) 0 mod modulus.

Definition square_root_fraction (p : N) : N :=
  N.sqrt (p * 2 ^ 64) mod modulus.

Definition K : list N := Eval vm_compute in map cube_root_fraction primes.

(** Big-endian bytes of a number, [n] of them. *)
Fixpoint be_bytes (n : nat) (x : N) : list N :=
  match n with
  | O => []
  | S n' => (N.shiftr x (8 * N.of_nat n')) mod 256 :: be_bytes n' x
  end.

(** Message padding: a [0x80] byte, zeros up to 56 modulo 64, then the
    bit length on eight bytes. *)
Definition pad (msg : list N) : list N :=
  let len := N.of_nat (List.length msg) in
  let zeros := N.to_nat ((119 - len mod 64) mod 64) in
  msg ++ 0x80 :: repeat 0 zeros ++ be_bytes 8 (8 * len).

(** Big-endian 32-bit words of a byte sequence. *)
Fixpoint words (bs : list N) : list N :=
  match bs with
  | a :: b :: c :: d :: rest =>
      (((a * 256 + b) * 256 + c) * 256 + d) :: words rest
  | _ => []
  end.

(** Message schedule; the window holds the sixteen latest words, newest
    first. *)
Fixpoint schedule (n : nat) (window : list N) : list N :=
  match n with
  | O => []
  | S n' =>
      let w := add32 (add32 (sigma1 (nth 1 window 0)) (nth 6 window 0))
                     (add32 (sigma0 (nth 14 window 0)) (nth 15 window 0)) in
      w :: schedule n' (w :: firstn 15 window)
  end.

Record state : Type := mkState
  { wa : N; wb : N; wc : N; wd : N; we : N; wf : N; wg : N; wh : N }.

Definition round (s : state) (kw : N * N) : state :=
  let t1 := add32 (add32 (add32 (wh s) (Sigma1 (we s)))
                         (add32 (Ch (we s) (wf s) (wg s)) (fst kw)))
                  (snd kw) in
  let t2 := add32 (Sigma0 (wa s)) (Maj (wa s) (wb s) (wc s)) in
  mkState (add32 t1 t2) (wa s) (wb s) (wc s)
          (add32 (wd s) t1) (we s) (wf s) (wg s).

Definition compress (h : state) (block : list N) : state :=
  let w := block ++ schedule 48 (rev block) in
  let s := fold_left round (combine K w) h in
  mkState (add32 (wa h) (wa s)) (add32 (wb h) (wb s))
          (add32 (wc h) (wc s)) (add32 (wd h) (wd s))
          (add32 (we h) (we s)) (add32 (wf h) (wf s))
          (add32 (wg h) (wg s)) (add32 (wh h) (wh s)).

Fixpoint blocks (n : nat) (ws : list N) (h : state) : state :=
  match n with
  | O => h
  | S n' => blocks n' (skipn 16 ws) (compress h (firstn 16 ws))
  end.

Definition initial : state :=
  Eval vm_compute in
    let h := map square_root_fraction (firstn 8 primes) in
    mkState (nth 0 h 0) (nth 1 h 0) (nth 2 h 0) (nth 3 h 0)
            (nth 4 h 0) (nth 5 h 0) (nth 6 h 0) (nth 7 h 0).

Definition hex_char (d : N) : ascii :=
  ascii_of_N (if d <? 10 then 48 + d else 87 + d).

Fixpoint hex_word (n : nat) (x : N) : string :=
  match n with
  | O => EmptyString
  | S n' => String (hex_char (N.shiftr x (4 * N.of_nat n') mod 16))
                   (hex_word n' x)
  end.

Definition hex_state (s : state) : string :=
  String.concat EmptyString
    (map (hex_word 8)
         [wa s; wb s; wc s; wd s; we s; wf s; wg s; wh s]).

(** [createHash("sha256").update(data).digest("hex")]. *)
Definition digest_hex (data : list byte) : string :=
  let ws := words (pad (map Byte.to_N data)) in
  hex_state (blocks (List.length ws / 16) ws initial).

End Sha256.

(* ===================================================================== *)
(** ** Data model ([MerkleTree.ts], lines 4-31) *)
(* ===================================================================== *)

Local Open Scope string_scope.

Record Balance : Type := mkBalance
  { asset : string;
    balance : Z }.

Record Account : Type := mkAccount
  { identifier : string;
    balances : list Balance }.

(** The [type]/[data] pair of [MerkleTreeProps], a discriminated union. *)
Inductive MerkleTreeData : Type :=
| Balances (data : list Account)
| Generic (data : list string).

Definition records (d : MerkleTreeData) : nat :=
  match d with
  | Balances data => List.length data
  | Generic data => List.length data
  end.

Record MerkleTreeProps : Type := mkProps
  { props_data : MerkleTreeData;
    props_leaves : option (list string);
    props_layers : option (list (list string));
    props_root : JS.value }.

Record MerkleTree : Type := mkTree
  { leaves : list string;
    layers : list (list string);
    data : MerkleTreeData;
    root : JS.value }.

Inductive Direction : Type := dir_left | dir_right.

Record ProofStep : Type := mkStep
  { sibling : JS.value;
    direction : Direction }.

(** Result of [verifyTree] ([MerkleTree.ts], line 136). *)
Record VerifyResult : Type := mkVerifyResult
  { status : bool;
    completed : nat;
    errors : nat }.

(** The ["result"] message posted by [handleValidate] ([worker.ts],
    lines 98-103). *)
Record ValidateMessage : Type := mkValidateMessage
  { msg_success : bool;
    msg_completed : nat;
    msg_errors : nat }.

(** Induction on a list two elements at a time, the stride of the pairing
    loop. *)
Lemma list_pair_ind (A : Type) (P : list A -> Prop) :
  P [] ->
  (forall a, P [a]) ->
  (forall a b rest, P rest -> P (a :: b :: rest)) ->
  forall l, P l.
Proof.
  intros Hnil Hone Hstep.
  fix go 1. intros [|a [|b rest]].
  - exact Hnil.
  - apply Hone.
  - apply Hstep, go.
Qed.

(* ===================================================================== *)
(** ** TreeBuilder: the two nested loops of [buildTree]/[workerBuildTree] *)
(* ===================================================================== *)

Section TreeBuilder.

(** The pair-hashing function the loop calls: [this.hashPair] in the
    class, the helper [hashPair] in the worker. *)
Variable pair : string -> string -> string.

(** The inner [for (let i = 0; i < currentLayer.length; i += 2)] loop:
    [left = currentLayer[i]], [right = currentLayer[i + 1]] when that
    index exists and [left] otherwise. *)
Fixpoint nextLayer (currentLayer : list string) : list string :=
  match currentLayer with
  | leftNode :: rightNode :: rest =>
      pair leftNode rightNode :: nextLayer rest
  | [leftNode] => [pair leftNode leftNode]
  | [] => []
  end.

Lemma nextLayer_length (l : list string) :
  List.length (nextLayer l) = Nat.div2 (S (List.length l)).
Proof.
  induction l as [| a | a b rest IH] using list_pair_ind;
    [reflexivity | reflexivity |].
  cbn [nextLayer List.length Nat.div2]. now rewrite IH.
Qed.

Lemma div2_succ_lt (n : nat) : 1 < n -> Nat.div2 (S n) < n.
Proof.
  intros H. pose proof (Nat.div2_odd (S n)) as E.
  destruct (Nat.odd (S n)); cbn [Nat.b2n] in E; lia.
Qed.

(** The outer [while (currentLayer.length > 1)] loop; the result is the
    sequence of layers pushed, in order. *)
Equations? buildLoop (currentLayer : list string) : list (list string)
  by wf (List.length currentLayer) lt :=
  buildLoop [] := [];
  buildLoop [_] := [];
  buildLoop (a :: b :: rest) :=
    let newLayer := nextLayer (a :: b :: rest) in
    newLayer :: buildLoop newLayer.
Proof.
  change (List.length (nextLayer (a :: b :: rest))
          < List.length (a :: b :: rest)).
  rewrite nextLayer_length. apply div2_succ_lt. cbn. lia.
Qed.

End TreeBuilder.

(* ===================================================================== *)
(** ** HashEngine, ProofService and the [MerkleTree] class *)
(* ===================================================================== *)

Section Core.

(** [createHash("sha256").update(data).digest("hex")]. *)
Variable digest : list byte -> string.

(** *** [helpers.ts] *)

Definition hashGeneric (data : string) : string := digest (JS.utf8 data).

Definition stringifyAccounts (accounts : list Account) : list string :=
  map (fun account =>
         identifier account ++ ":" ++
         JS.join ","
           (map (fun b => asset b ++ JS.numberToString (balance b))
                (balances account)))
      accounts.

(** [leafToHash] holds exactly one string, so [leafToHash[0]] is
    defined. *)
Definition hashData (d : MerkleTreeData) : list string :=
  match d with
  | Balances data =>
      map (fun leaf =>
             let leafToHash := stringifyAccounts [leaf] in
             let hashedLeaf := hashGeneric (hd EmptyString leafToHash) in
             hashedLeaf)
          data
  | Generic data =>
      map (fun leaf => let hashedLeaf := hashGeneric leaf in hashedLeaf)
          data
  end.

Definition hashPair (leftNode rightNode : string) : string :=
  let data := JS.Buffer_from_hex (leftNode ++ rightNode) in
  digest data.

(** [hashPair] has no [throw] and [Buffer.from(_, "hex")] truncates
    instead of failing, so a call always returns. *)
Definition hashPair_call (leftNode rightNode : string)
  : JS.outcome string :=
  JS.Returned (hashPair leftNode rightNode).

(** *** [worker.ts] *)

Definition workerBuildTree (leaves : list string) : list (list string) :=
  let layers := [leaves] in
  layers ++ buildLoop hashPair leaves.

(** One iteration of the [for] loop of [getProof]. *)
Definition proofStep (currentLayer : list string) (currentIndex : Z)
  : ProofStep :=
  let isRightNode := (JS.remainder currentIndex 2 =? 1)%Z in
  let siblingIndex :=
    if isRightNode then (currentIndex - 1)%Z else (currentIndex + 1)%Z in
  if (siblingIndex <? JS.length currentLayer)%Z then
    {| sibling := JS.index currentLayer siblingIndex;
       direction := if isRightNode then dir_left else dir_right |}
  else
    {| sibling := JS.index currentLayer currentIndex;
       direction := dir_right |}.

(** [for (let i = 0; i < layers.length - 1; i++)]: every layer but the
    last one is visited, [currentIndex] being halved after each. *)
Fixpoint getProof_loop (layers : list (list string)) (currentIndex : Z)
  : list ProofStep :=
  match layers with
  | currentLayer :: ((_ :: _) as rest) =>
      proofStep currentLayer currentIndex
        :: getProof_loop rest (JS.floor_div currentIndex 2)
  | _ => []
  end.

Definition getProof (index : Z) (layers : list (list string))
  : list ProofStep :=
  getProof_loop layers index.

(** [getProof] has no [throw]; array reads out of range give
    [undefined], so a call always returns. *)
Definition getProof_call (index : Z) (layers : list (list string))
  : JS.outcome (list ProofStep) :=
  JS.Returned (getProof index layers).

(** Body of the [for ... of proof] loop of [verifyLeaf]; an [undefined]
    sibling is coerced by [left + right] inside [hashPair]. *)
Definition verifyStep (computedHash : string) (step : ProofStep)
  : string :=
  match direction step with
  | dir_left => hashPair (JS.toString (sibling step)) computedHash
  | dir_right => hashPair computedHash (JS.toString (sibling step))
  end.

Definition verifyLeaf (leaf : string) (proof : list ProofStep)
           (root : JS.value) : bool :=
  let computedHash := fold_left verifyStep proof leaf in
  match root with
  | Some r => String.eqb computedHash r
  | None => false
  end.

(** The loop of [handleValidate]; [pending] are the leaves from index
    [i] on, so its head is [merkleTree.leaves[i]]. *)
Fixpoint handleValidate_loop (merkleTree : MerkleTree)
         (pending : list string) (i : Z) (completed errors : nat)
  : nat * nat :=
  match pending with
  | [] => (completed, errors)
  | leaf :: rest =>
      let proof := getProof i (layers merkleTree) in
      let check := verifyLeaf leaf proof (root merkleTree) in
      if check
      then handleValidate_loop merkleTree rest (i + 1) (S completed) errors
      else handleValidate_loop merkleTree rest (i + 1) completed (S errors)
  end.

Definition handleValidate (merkleTree : MerkleTree) : ValidateMessage :=
  let '(completed, errors) :=
    handleValidate_loop merkleTree (leaves merkleTree) 0 0 0 in
  {| msg_success := Nat.eqb errors 0;
     msg_completed := completed;
     msg_errors := errors |}.

(** *** [MerkleTree.ts] *)

(** The method [hashPair] of the class (lines 54-57). *)
Definition MerkleTree_hashPair (leftNode rightNode : string) : string :=
  let data := JS.Buffer_from_hex (leftNode ++ rightNode) in
  digest data.

(** [buildTree]: pushes the new layers onto [this.layers]. *)
Definition buildTree (this_leaves : list string)
           (this_layers : list (list string)) : list (list string) :=
  this_layers ++ buildLoop MerkleTree_hashPair this_leaves.

(** Truthiness of [leaves && layers && root]: an array is truthy even
    when empty, a string only when non-empty, [undefined] never. *)
Definition precomputed (props : MerkleTreeProps) : bool :=
  match props_leaves props, props_layers props, props_root props with
  | Some _, Some _, Some r => negb (String.eqb r EmptyString)
  | _, _, _ => false
  end.

(** [this.layers[this.layers.length - 1][0]]. *)
Definition lastLayerHead (layers : list (list string)) : JS.value :=
  match JS.index layers (JS.length layers - 1) with
  | Some lastLayer => JS.index lastLayer 0
  | None => JS.undefined
  end.

Definition MerkleTree_new (props : MerkleTreeProps) : MerkleTree :=
  match props_leaves props, props_layers props, props_root props with
  | Some leaves, Some layers, Some root =>
      if negb (String.eqb root EmptyString) then
        {| leaves := leaves;
           layers := layers;
           data := props_data props;
           root := Some root |}
      else
        let this_leaves := hashData (props_data props) in
        let this_layers := buildTree this_leaves [this_leaves] in
        {| leaves := this_leaves;
           layers := this_layers;
           data := props_data props;
           root := lastLayerHead this_layers |}
  | _, _, _ =>
      let this_leaves := hashData (props_data props) in
      let this_layers := buildTree this_leaves [this_leaves] in
      {| leaves := this_leaves;
         layers := this_layers;
         data := props_data props;
         root := lastLayerHead this_layers |}
  end.

(** The loop of [verifyTree]; [pending] are the leaves from index [i]
    on. *)
Fixpoint verifyTree_loop (this : MerkleTree) (pending : list string)
         (i : Z) (completed errors : nat) : nat * nat :=
  match pending with
  | [] => (completed, errors)
  | leaf :: rest =>
      let proof := getProof i (layers this) in
      if negb (verifyLeaf leaf proof (root this))
      then verifyTree_loop this rest (i + 1) completed (S errors)
      else verifyTree_loop this rest (i + 1) (S completed) errors
  end.

Definition verifyTree (this : MerkleTree) : VerifyResult :=
  let '(completed, errors) :=
    verifyTree_loop this (leaves this) 0 0 0 in
  {| status := Nat.eqb errors 0;
     completed := completed;
     errors := errors |}.

(** [verifyTree] has no [throw] and calls only [getProof] and
    [verifyLeaf], which always return. *)
Definition verifyTree_call (this : MerkleTree) : JS.outcome VerifyResult :=
  JS.Returned (verifyTree this).

End Core.

(* ===================================================================== *)
(** ** Notions used to state the properties *)
(* ===================================================================== *)

(** Value of [currentIndex] when the loop of [getProof] enters its
    iteration [i]: the requested index halved [i] times. *)
Definition currentIndexAt (index : Z) (i : nat) : Z :=
  Nat.iter i (fun c => JS.floor_div c 2) index.

(** Does the leaf at position [i] pass [verifyLeaf] with the proof
    [getProof] derives for it, against the root held by the tree? *)
Definition leafVerifies (digest : list byte -> string) (t : MerkleTree)
           (i : nat) : bool :=
  match nth_error (leaves t) i with
  | Some leaf =>
      verifyLeaf digest leaf (getProof (Z.of_nat i) (layers t)) (root t)
  | None => false
  end.

(** Number of indices among [from, from + count) whose leaf passes,
    respectively fails, that check. *)
Definition passes (digest : list byte -> string) (t : MerkleTree)
           (from count : nat) : nat :=
  List.length (filter (leafVerifies digest t) (seq from count)).

Definition failures (digest : list byte -> string) (t : MerkleTree)
           (from count : nat) : nat :=
  List.length
    (filter (fun i => negb (leafVerifies digest t i)) (seq from count)).

(** The canonical string of a structured record in the words of the
    design: the identifier, a colon, then each asset immediately followed
    by its balance, the pairs separated by commas. *)
Fixpoint canonicalBalances (bs : list Balance) : string :=
  match bs with
  | [] => EmptyString
  | [b] => asset b ++ JS.numberToString (balance b)
  | b :: rest =>
      asset b ++ JS.numberToString (balance b) ++ "," ++ canonicalBalances rest
  end.

Definition canonicalRecord (account : Account) : string :=
  identifier account ++ ":" ++ canonicalBalances (balances account).

(** Structural invariants 1 to 3 of the data model, as decidable checks. *)
Definition leafLayerAligned (t : MerkleTree) : bool :=
  match layers t with
  | leafLayer :: _ => Nat.eqb (List.length leafLayer) (records (data t))
  | [] => false
  end.

Fixpoint layersHalve (ls : list (list string)) : bool :=
  match ls with
  | lower :: ((upper :: _) as rest) =>
      Nat.eqb (List.length upper) (Nat.div2 (S (List.length lower)))
      && layersHalve rest
  | _ => true
  end.

Definition lastLayerIsRoot (t : MerkleTree) : bool :=
  match last (layers t) [], root t with
  | [r], Some r' => String.eqb r r'
  | _, _ => false
  end.

Definition structurallyValid (t : MerkleTree) : bool :=
  leafLayerAligned t && layersHalve (layers t) && lastLayerIsRoot t.

(* ===================================================================== *)
(** ** Concrete instances *)
(* ===================================================================== *)

Module Examples.

Definition sha256 : list byte -> string := Sha256.digest_hex.

Definition freshProps (d : MerkleTreeData) : MerkleTreeProps :=
  {| props_data := d;
     props_leaves := None;
     props_layers := None;
     props_root := None |}.

(** The three-leaf scenario of the design: records ["a"], ["b"], ["c"]. *)
Definition abc : MerkleTree :=
  MerkleTree_new sha256 (freshProps (Generic ["a"; "b"; "c"])).

Definition Ha : string :=
  "ca978112ca1bbdcafac231b39a23dc4da786eff8147c4e72b9807785afee48bb".
Definition Hb : string :=
  "3e23e8160039594a33894f6564e1b1348bbd7a0088d42c4acb73eeaed59c009d".
Definition Hc : string :=
  "2e7d2c03a9507ae265ecf5b5356885a53393a2029d241394997265a1a25aefc6".
Definition Hab : string :=
  "e5a01fee14e0ed5c48714f22180f25ad8365b53f9779f79dc4a3d7e93963f94a".
Definition Hcc : string :=
  "a3e333fbee455b9a054cf05077f0f9d45b91bd13db4cd4a3681ec47455af085c".
Definition Habcc : string :=
  "d31a37ef6ac14a2db1470c4316beb5592e6afd4465022339adafda76a18ffabe".

Definition alice : Account :=
  {| identifier := "ACC00000001";
     balances := [ {| asset := "eth"; balance := 12 |};
                   {| asset := "btc"; balance := 0 |} ] |}.

(** A bundle whose parts disagree with each other and with the data. *)
Definition bogusBundle : MerkleTreeProps :=
  {| props_data := Generic ["a"; "b"; "c"];
     props_leaves := Some ["00"];
     props_layers := Some [["11"; "22"]; ["33"; "44"; "55"]];
     props_root := Some "66" |}.

Definition emptyTree : MerkleTree :=
  MerkleTree_new sha256 (freshProps (Generic [])).

End Examples.

(* ===================================================================== *)
(** ** More of the sources: export, worker handlers, input validation *)
(* ===================================================================== *)

(** [a.map((x, index) => f(x, index))], the positions counted from
    [index]. *)
Fixpoint Array_map_indexed {A B : Type} (f : A -> Z -> B) (a : list A)
         (index : Z) : list B :=
  match a with
  | [] => []
  | x :: rest => f x index :: Array_map_indexed f rest (index + 1)%Z
  end.

(** An element of [this.data]: an account or a plain string. *)
Inductive DataRecord : Type :=
| AccountRecord (account : Account)
| StringRecord (s : string).

(** [this.data[index]]. *)
Definition dataAt (d : MerkleTreeData) (index : Z) : option DataRecord :=
  match d with
  | Balances data => option_map AccountRecord (JS.index data index)
  | Generic data => option_map StringRecord (JS.index data index)
  end.

Record ExportLeaf : Type := mkExportLeaf
  { export_index : Z;
    export_hash : string;
    export_data : option DataRecord;
    export_proof : list ProofStep }.

Record ExportData : Type := mkExportData
  { export_root : JS.value;
    export_leaves : list ExportLeaf }.

(** The method [export] of the class ([MerkleTree.ts], lines 139-151). *)
Definition MerkleTree_export (this : MerkleTree) : ExportData :=
  let exportData :=
    {| export_root := root this;
       export_leaves :=
         Array_map_indexed
           (fun leaf index =>
              {| export_index := index;
                 export_hash := leaf;
                 export_data := dataAt (data this) index;
                 export_proof := getProof index (layers this) |})
           (leaves this) 0 |} in
  exportData.

(** The object [handleExport] serialises ([worker.ts], lines 107-115). *)
Definition handleExport_data (merkleTree : MerkleTree) : ExportData :=
  {| export_root := root merkleTree;
     export_leaves :=
       Array_map_indexed
         (fun leaf index =>
            {| export_index := index;
               export_hash := leaf;
               export_data := dataAt (data merkleTree) index;
               export_proof := getProof index (layers merkleTree) |})
         (leaves merkleTree) 0 |}.

(** The ["result"] message of the two tree-generating handlers. *)
Record GenerateMessage : Type := mkGenerateMessage
  { msg_leaves : list string;
    msg_layers : list (list string) }.

(** What the worker posts back for one request. *)
Inductive WorkerReply : Type :=
| ReplyResult (message : GenerateMessage)
| ReplyError.

(** The state a promise ends in. *)
Inductive Promise (A : Type) : Type :=
| Resolved (a : A)
| RejectedWith (e : JS.error)
| Pending.

Arguments Resolved {A} a.
Arguments RejectedWith {A} e.
Arguments Pending {A}.

Section Worker.

(** [createHash("sha256").update(data).digest("hex")]. *)
Variable digest : list byte -> string.

Definition handleGenerateMerkleBalances (data : list Account)
  : GenerateMessage :=
  let leaves := hashData digest (Balances data) in
  let layers := workerBuildTree digest leaves in
  {| msg_leaves := leaves; msg_layers := layers |}.

Definition handleGenerateMerkleGeneric (data : list string)
  : GenerateMessage :=
  let leaves := hashData digest (Generic data) in
  let layers := workerBuildTree digest leaves in
  {| msg_leaves := leaves; msg_layers := layers |}.

(** [self.onmessage] ([worker.ts], lines 15-39) on the request
    [{ type: "generateMerkleBalances", data }], for the data found at run
    time. Accounts are hashed and a ["result"] is posted. A string has no
    [balances], so [account.balances.map] throws at the first record, the
    [catch] posts an ["error"] message and no result follows; over an
    empty array nothing is called. *)
Definition worker_onmessage (data : MerkleTreeData) : WorkerReply :=
  match data with
  | Balances accounts => ReplyResult (handleGenerateMerkleBalances accounts)
  | Generic [] => ReplyResult (handleGenerateMerkleBalances [])
  | Generic (_ :: _) => ReplyError
  end.

(** [merkleTreeWorker] ([helpers.ts], lines 65-93); the pair of [data]
    and [type] is a [MerkleTreeData]. The request is always
    ["generateMerkleBalances"]. Only a ["result"] message resolves the
    inner promise; an ["error"] message is ignored and, the worker having
    caught its error, [onerror] does not fire: the promise stays pending.
    On a result the constructor receives [leaves] and [layers] but no
    [root]. *)
Definition merkleTreeWorker (data : MerkleTreeData) : Promise MerkleTree :=
  match worker_onmessage data with
  | ReplyResult response =>
      Resolved
        (MerkleTree_new digest
           {| props_data := data;
              props_leaves := Some (msg_leaves response);
              props_layers := Some (msg_layers response);
              props_root := JS.undefined |})
  | ReplyError => Pending
  end.

(** [generateMerkleTree] ([helpers.ts], lines 40-63); the spinner and the
    note are left out. *)
Definition generateMerkleTree (data : list Account) : Promise MerkleTree :=
  merkleTreeWorker (Balances data).

End Worker.

(** *** Parsed JSON, as [loadData] hands it to [checkAccountType] *)

(** A value produced by [JSON.parse]; numbers are restricted to
    integers, of which the code only takes the [typeof]. *)
#[warnings="-register-all"]
Inductive json : Type :=
| JNull
| JBool (b : bool)
| JNumber (n : Z)
| JString (s : string)
| JArray (items : list json)
| JObject (fields : list (string * json)).

(** Own property of a parsed object; of duplicate keys the last one
    counts. *)
Fixpoint lookup (fields : list (string * json)) (key : string)
  : option json :=
  match fields with
  | [] => None
  | (k, v) :: rest =>
      match lookup rest key with
      | Some v' => Some v'
      | None => if String.eqb k key then Some v else None
      end
  end.

(** [v.key] for a value other than [null], for the four keys the code
    reads: primitives and arrays have no such property. *)
Definition getProperty (v : json) (key : string) : option json :=
  match v with
  | JObject fields => lookup fields key
  | _ => None
  end.

(** [typeof], [None] standing for [undefined]. *)
Definition typeof (v : option json) : string :=
  match v with
  | None => "undefined"
  | Some (JBool _) => "boolean"
  | Some (JNumber _) => "number"
  | Some (JString _) => "string"
  | Some JNull | Some (JArray _) | Some (JObject _) => "object"
  end.

Definition Array_isArray (v : option json) : bool :=
  match v with
  | Some (JArray _) => true
  | _ => false
  end.

(** What a call of [checkAccountType] does: it returns [undefined], or
    returns a message, or throws the [TypeError] of a property read on
    [null]. *)
Inductive CheckResult : Type :=
| Accepted
| Rejected (message : string)
| TypeErrorThrown.

(** The inner loop [for (const balance of account.balances)]. *)
Fixpoint checkBalances (pending : list json) : CheckResult :=
  match pending with
  | [] => Accepted
  | JNull :: _ => TypeErrorThrown
  | balance :: rest =>
      if negb (String.eqb (typeof (getProperty balance "asset")) "string")
         || negb (String.eqb (typeof (getProperty balance "balance"))
                             "number")
      then Rejected
        "Invalid balance: asset must be a string and balance must be a number."
      else checkBalances rest
  end.

(** The outer loop [for (const account of data)]. *)
Fixpoint checkAccounts (pending : list json) : CheckResult :=
  match pending with
  | [] => Accepted
  | JNull :: _ => TypeErrorThrown
  | account :: rest =>
      if negb (String.eqb (typeof (getProperty account "identifier"))
                          "string")
      then Rejected "Invalid account: identifier must be a string."
      else
        match getProperty account "balances" with
        | Some (JArray balances) =>
            match checkBalances balances with
            | Accepted => checkAccounts rest
            | stopped => stopped
            end
        | _ => Rejected "Invalid account: balances must be an array."
        end
  end.

Definition checkAccountType (data : json) : CheckResult :=
  match data with
  | JArray accounts => checkAccounts accounts
  | _ => Rejected "File does not contain an array of accounts."
  end.

(** The fields [stringifyAccounts] reads from an element of the data:
    [account.identifier], [account.balances], [b.asset], [b.balance]. *)
Definition asBalance (v : json) : option Balance :=
  match getProperty v "asset", getProperty v "balance" with
  | Some (JString a), Some (JNumber n) => Some (mkBalance a n)
  | _, _ => None
  end.

Fixpoint asBalances (items : list json) : option (list Balance) :=
  match items with
  | [] => Some []
  | v :: rest =>
      match asBalance v, asBalances rest with
      | Some b, Some bs => Some (b :: bs)
      | _, _ => None
      end
  end.

Definition asAccount (v : json) : option Account :=
  match getProperty v "identifier", getProperty v "balances" with
  | Some (JString i), Some (JArray bs) =>
      option_map (mkAccount i) (asBalances bs)
  | _, _ => None
  end.

Fixpoint asAccountList (items : list json) : option (list Account) :=
  match items with
  | [] => Some []
  | v :: rest =>
      match asAccount v, asAccountList rest with
      | Some a, Some l => Some (a :: l)
      | _, _ => None
      end
  end.

Definition asAccounts (data : json) : option (list Account) :=
  match data with
  | JArray items => asAccountList items
  | _ => None
  end.

(** A parsed value with the fields of a typed balance or account, used
    to build inputs of [checkAccountType]. This is not the round trip
    through [JSON.stringify]: a balance that is no finite number is
    written as [null] there. *)
Definition Balance_toJSON (b : Balance) : json :=
  JObject [("asset", JString (asset b)); ("balance", JNumber (balance b))].

Definition Account_toJSON (a : Account) : json :=
  JObject [("identifier", JString (identifier a));
           ("balances", JArray (map Balance_toJSON (balances a)))].

(** The string a record is hashed from, and its leaf digest. *)
Definition recordString (r : DataRecord) : string :=
  match r with
  | AccountRecord account => canonicalRecord account
  | StringRecord s => s
  end.

Definition leafHash (digest : list byte -> string) (r : DataRecord)
  : string :=
  digest (JS.utf8 (recordString r)).

(** *** Digests as strings *)

Definition lower_hex_char (c : ascii) : bool :=
  let n := N_of_ascii c in
  ((48 <=? n)%N && (n <=? 57)%N) || ((97 <=? n)%N && (n <=? 102)%N).

(** An even number of characters, all of them digits or letters [a-f]. *)
Fixpoint lower_hex_pairs (s : string) : bool :=
  match s with
  | EmptyString => true
  | String a (String b rest) =>
      lower_hex_char a && lower_hex_char b && lower_hex_pairs rest
  | String _ EmptyString => false
  end.

(** A digest of the data model: 64 lower-case hexadecimal characters. *)
Definition is_digest (s : string) : bool :=
  Nat.eqb (String.length s) 64 && lower_hex_pairs s.

(** The bytes [hashPair] digests in one step of [verifyLeaf]. *)
Definition stepInput (computedHash : string) (step : ProofStep)
  : list byte :=
  match direction step with
  | dir_left =>
      JS.Buffer_from_hex (JS.toString (sibling step) ++ computedHash)
  | dir_right =>
      JS.Buffer_from_hex (computedHash ++ JS.toString (sibling step))
  end.

(** The byte sequences digested, step after step, while [verifyLeaf]
    folds a proof from [computedHash]. *)
Fixpoint verifyInputs (digest : list byte -> string)
         (proof : list ProofStep) (computedHash : string)
  : list (list byte) :=
  match proof with
  | [] => []
  | step :: rest =>
      stepInput computedHash step
        :: verifyInputs digest rest (verifyStep digest computedHash step)
  end.

(** Two runs of [verifyLeaf] digest, at the same step, two different
    byte sequences to the same value. *)
Definition collide (digest : list byte -> string)
           (leaf leaf' : string) (p p' : list ProofStep) : Prop :=
  exists (i : nat) (x y : list byte),
    nth_error (verifyInputs digest p leaf) i = Some x /\
    nth_error (verifyInputs digest p' leaf') i = Some y /\
    x <> y /\ digest x = digest y.

(** Letters [a-f] turned into [A-F], every other character kept. *)
Definition upcase_hex_char (c : ascii) : ascii :=
  let n := N_of_ascii c in
  if (97 <=? n)%N && (n <=? 102)%N then ascii_of_N (n - 32) else c.

Fixpoint upcase_hex (s : string) : string :=
  match s with
  | EmptyString => EmptyString
  | String c rest => String (upcase_hex_char c) (upcase_hex rest)
  end.

Definition upcase_step (step : ProofStep) : ProofStep :=
  {| sibling := option_map upcase_hex (sibling step);
     direction := direction step |}.

(** Two strings of the same length whose characters have, position by
    position, the same hexadecimal value (or none). *)
Fixpoint same_digits (s s' : string) : Prop :=
  match s, s' with
  | EmptyString, EmptyString => True
  | String c rest, String c' rest' =>
      JS.hex_digit c = JS.hex_digit c' /\ same_digits rest rest'
  | _, _ => False
  end.

(** [s'] is [s] with some characters below 128 replaced by characters
    below 128 of the same hexadecimal value (or none). *)
Definition recased_char (b b' : ascii) : Prop :=
  b' = b \/
  ((N_of_ascii b < 128)%N /\ (N_of_ascii b' < 128)%N /\
   JS.hex_digit b = JS.hex_digit b').

Fixpoint recased (s s' : string) : Prop :=
  match s, s' with
  | EmptyString, EmptyString => True
  | String b rest, String b' rest' =>
      recased_char b b' /\ recased rest rest'
  | _, _ => False
  end.

(** A proof all of whose siblings are digests. *)
Definition digest_proof (proof : list ProofStep) : bool :=
  forallb (fun step =>
             match sibling step with
             | Some s => is_digest s
             | None => false
             end)
          proof.

(* ===================================================================== *)
(** ** Facts about the builder loops *)
(* ===================================================================== *)

Section BuilderFacts.

Variable pair : string -> string -> string.

Lemma buildLoop_step (currentLayer : list string) :
  buildLoop pair currentLayer =
  if (1 <? List.length currentLayer)%nat
  then nextLayer pair currentLayer
         :: buildLoop pair (nextLayer pair currentLayer)
  else [].
Proof.
  destruct currentLayer as [|a [|b rest]]; simp buildLoop; reflexivity.
Qed.

Lemma buildLoop_short (currentLayer : list string) :
  List.length currentLayer <= 1 -> buildLoop pair currentLayer = [].
Proof.
  intros H. rewrite buildLoop_step.
  destruct (Nat.ltb_spec 1 (List.length currentLayer)); [lia | reflexivity].
Qed.

Lemma buildLoop_long (currentLayer : list string) :
  1 < List.length currentLayer ->
  buildLoop pair currentLayer =
  nextLayer pair currentLayer
    :: buildLoop pair (nextLayer pair currentLayer).
Proof.
  intros H. rewrite buildLoop_step.
  destruct (Nat.ltb_spec 1 (List.length currentLayer)); [reflexivity | lia].
Qed.

(** Every parent is the pair hash of its two children, the second child
    being the first one again when it is missing. *)
Lemma nextLayer_nth (l : list string) (j : nat) :
  j < List.length (nextLayer pair l) ->
  exists x,
    nth_error l (2 * j) = Some x /\
    nth_error (nextLayer pair l) j =
    Some (pair x (match nth_error l (2 * j + 1) with
                  | Some y => y
                  | None => x
                  end)).
Proof.
  revert j. induction l as [| a | a b rest IH] using list_pair_ind;
    intros j Hj.
  - cbn in Hj. lia.
  - cbn in Hj. assert (j = 0) by lia. subst j. exists a. split; reflexivity.
  - destruct j as [|j].
    + exists a. split; reflexivity.
    + cbn [nextLayer List.length] in Hj.
      destruct (IH j) as [x [Hx Hp]]; [lia |].
      exists x. replace (2 * S j) with (S (S (2 * j))) by lia.
      replace (S (S (2 * j)) + 1) with (S (S (2 * j + 1))) by lia.
      cbn [nextLayer nth_error]. split; assumption.
Qed.

(** Consecutive layers are related by the pairing loop. *)
Lemma layers_consecutive (i : nat) :
  forall currentLayer layer next,
    nth_error (currentLayer :: buildLoop pair currentLayer) i = Some layer ->
    nth_error (currentLayer :: buildLoop pair currentLayer) (S i)
      = Some next ->
    1 < List.length layer /\ next = nextLayer pair layer.
Proof.
  induction i as [|i IH]; intros cur layer next Hl Hn.
  - cbn in Hl. injection Hl as <-. cbn [nth_error] in Hn.
    rewrite buildLoop_step in Hn.
    destruct (Nat.ltb_spec 1 (List.length cur)) as [H|H].
    + cbn in Hn. injection Hn as <-. split; [assumption | reflexivity].
    + cbn in Hn. discriminate Hn.
  - cbn [nth_error] in Hl, Hn.
    rewrite buildLoop_step in Hl, Hn.
    destruct (Nat.ltb_spec 1 (List.length cur)) as [H|H].
    + apply (IH (nextLayer pair cur)); assumption.
    + destruct i; discriminate Hl.
Qed.

Lemma log2_up_halve (n : nat) :
  1 < n -> Nat.log2_up n = S (Nat.log2_up (Nat.div2 (S n))).
Proof.
  intros Hn. set (m := Nat.div2 (S n)).
  assert (Hm : 2 * m = n \/ 2 * m = n + 1).
  { pose proof (Nat.div2_odd (S n)) as E. fold m in E.
    destruct (Nat.odd (S n)); cbn [Nat.b2n] in E; lia. }
  destruct (Nat.eq_dec m 1) as [E1|E1].
  - rewrite E1. assert (n = 2) by lia. subst n. reflexivity.
  - assert (Hm1 : 1 < m) by lia.
    pose proof (Nat.log2_up_spec m Hm1) as [Hlo Hhi].
    pose proof (Nat.log2_up_pos m Hm1) as Hpos.
    apply Nat.log2_up_unique; [lia |].
    cbn [Nat.pred].
    destruct (Nat.log2_up m) as [|k]; [lia |].
    cbn [Nat.pred] in Hlo. rewrite !Nat.pow_succ_r' in *. lia.
Qed.

(** The loop pushes ceil(log2 n) layers for an input of length [n]. *)
Lemma buildLoop_length (currentLayer : list string) :
  List.length (buildLoop pair currentLayer)
  = Nat.log2_up (List.length currentLayer).
Proof.
  funelim (buildLoop pair currentLayer); simp buildLoop.
  - reflexivity.
  - reflexivity.
  - cbn zeta. cbn [List.length]. rewrite H.
    rewrite nextLayer_length.
    symmetry. apply log2_up_halve. cbn. lia.
Qed.

(** The last layer of a non-empty input holds exactly one node. *)
Lemma buildLoop_last (currentLayer : list string) :
  currentLayer <> [] ->
  List.length (last (currentLayer :: buildLoop pair currentLayer) []) = 1.
Proof.
  funelim (buildLoop pair currentLayer); simp buildLoop; intros Hne.
  - congruence.
  - reflexivity.
  - cbn zeta.
    change (last ((a :: b :: rest) :: ?x :: ?y) [])
      with (last (x :: y) []).
    apply H. destruct rest; discriminate.
Qed.

End BuilderFacts.

(* ===================================================================== *)
(** ** Facts about JavaScript primitives *)
(* ===================================================================== *)

Lemma JS_index_nat (A : Type) (a : list A) (k : nat) :
  JS.index a (Z.of_nat k) = nth_error a k.
Proof.
  unfold JS.index. destruct (Z.ltb_spec (Z.of_nat k) 0); [lia |].
  now rewrite Nat2Z.id.
Qed.

Lemma JS_index_negative (A : Type) (a : list A) (i : Z) :
  (i < 0)%Z -> JS.index a i = None.
Proof.
  intros H. unfold JS.index. destruct (Z.ltb_spec i 0); [reflexivity | lia].
Qed.

Lemma JS_floor_div_nat (k : nat) :
  JS.floor_div (Z.of_nat k) 2 = Z.of_nat (Nat.div2 k).
Proof.
  unfold JS.floor_div. rewrite Nat.div2_div, Nat2Z.inj_div. reflexivity.
Qed.

Lemma JS_remainder_odd (k : nat) :
  (JS.remainder (Z.of_nat k) 2 =? 1)%Z = Nat.odd k.
Proof.
  unfold JS.remainder. rewrite Z.rem_mod_nonneg by lia.
  change 2%Z with (Z.of_nat 2). rewrite <- Nat2Z.inj_mod.
  pose proof (Nat.div2_odd k) as E.
  pose proof (Nat.mod_upper_bound k 2 ltac:(lia)) as B.
  pose proof (Nat.div_mod_eq k 2) as D. rewrite <- Nat.div2_div in D.
  destruct (Nat.odd k); cbn [Nat.b2n] in E;
    [apply Z.eqb_eq | apply Z.eqb_neq]; lia.
Qed.

Lemma currentIndexAt_nat (k i : nat) :
  currentIndexAt (Z.of_nat k) i = Z.of_nat (Nat.iter i Nat.div2 k).
Proof.
  unfold currentIndexAt. induction i as [|i IH]; [reflexivity |].
  change (JS.floor_div (Nat.iter i (fun c => JS.floor_div c 2) (Z.of_nat k)) 2
          = Z.of_nat (Nat.div2 (Nat.iter i Nat.div2 k))).
  rewrite IH. apply JS_floor_div_nat.
Qed.

Lemma append_assoc (a b c : string) : (a ++ b) ++ c = a ++ b ++ c.
Proof.
  induction a as [|x a IH]; [reflexivity |].
  cbn [append]. now rewrite IH.
Qed.

Lemma append_empty_r (s : string) : s ++ EmptyString = s.
Proof. induction s as [|c s IH]; [reflexivity |]. cbn. now rewrite IH. Qed.

(** *** Code units and hexadecimal decoding *)

Lemma low_byte_ascii (b : ascii) : JS.low_byte (N_of_ascii b) = b.
Proof.
  unfold JS.low_byte. rewrite N.mod_small by apply N_ascii_bounded.
  apply ascii_N_embedding.
Qed.

Lemma hex_digit_ascii (c : ascii) (h : N) :
  JS.hex_digit c = Some h -> (N_of_ascii c < 128)%N.
Proof.
  unfold JS.hex_digit.
  destruct (N.leb_spec 48 (N_of_ascii c)), (N.leb_spec (N_of_ascii c) 57);
    cbn [andb]; try (intros _; lia);
    destruct (N.leb_spec 97 (N_of_ascii c)),
             (N.leb_spec (N_of_ascii c) 102);
    cbn [andb]; try (intros _; lia);
    destruct (N.leb_spec 65 (N_of_ascii c)), (N.leb_spec (N_of_ascii c) 70);
    cbn [andb]; try (intros _; lia); discriminate.
Qed.

(** A character below 128 is one code unit, read as itself. *)
Lemma low_bytes_cons_ascii (b : ascii) (s : string) :
  (N_of_ascii b < 128)%N ->
  JS.low_bytes (String b s) = String b (JS.low_bytes s).
Proof.
  intros H. unfold JS.low_bytes. cbn [JS.code_units].
  destruct (N.ltb_spec (N_of_ascii b) 128); [|lia].
  cbn [map string_of_list_ascii]. now rewrite low_byte_ascii.
Qed.

Lemma low_bytes_ascii_app (l r : string) :
  JS.all_ascii l = true -> JS.low_bytes (l ++ r) = l ++ JS.low_bytes r.
Proof.
  induction l as [|b l IH]; intros H; [reflexivity |].
  cbn [JS.all_ascii] in H. apply andb_prop in H as [Hb Hl].
  apply N.ltb_lt in Hb. cbn [append].
  rewrite low_bytes_cons_ascii by exact Hb. now rewrite IH.
Qed.

Lemma low_bytes_ascii (s : string) :
  JS.all_ascii s = true -> JS.low_bytes s = s.
Proof.
  intros H. rewrite <- (append_empty_r s) at 1.
  rewrite low_bytes_ascii_app by exact H. apply append_empty_r.
Qed.

Lemma well_formed_hex_ascii (s : string) :
  JS.well_formed_hex s = true -> JS.all_ascii s = true.
Proof.
  induction s as [s IH] using (well_founded_induction
    (Wf_nat.well_founded_ltof _ String.length)).
  destruct s as [|a [|b rest]]; intros H; try reflexivity;
    try discriminate H.
  cbn [JS.well_formed_hex] in H. cbn [JS.all_ascii].
  destruct (JS.hex_digit a) as [ha|] eqn:Ea; [|discriminate H].
  destruct (JS.hex_digit b) as [hb|] eqn:Eb; [|discriminate H].
  apply hex_digit_ascii in Ea, Eb. apply N.ltb_lt in Ea, Eb.
  rewrite Ea, Eb. cbn [andb]. apply IH; [|exact H].
  unfold Wf_nat.ltof. cbn. lia.
Qed.

Lemma hex_pairs_app (l r : string) :
  JS.well_formed_hex l = true ->
  JS.hex_pairs (l ++ r) = (JS.hex_pairs l ++ JS.hex_pairs r)%list.
Proof.
  revert r. induction l as [l IH] using (well_founded_induction
    (Wf_nat.well_founded_ltof _ String.length)).
  intros r Hwf. destruct l as [|a [|b rest]].
  - reflexivity.
  - discriminate Hwf.
  - cbn [JS.well_formed_hex] in Hwf. cbn [JS.hex_pairs append].
    destruct (JS.hex_digit a); [|discriminate Hwf].
    destruct (JS.hex_digit b); [|discriminate Hwf].
    cbn [app]. f_equal. apply IH; [|assumption].
    unfold Wf_nat.ltof. cbn. lia.
Qed.

(** On well-formed hexadecimal the decoder reads the characters
    themselves. *)
Lemma Buffer_from_hex_well_formed (s : string) :
  JS.well_formed_hex s = true -> JS.Buffer_from_hex s = JS.hex_pairs s.
Proof.
  intros H. unfold JS.Buffer_from_hex.
  now rewrite low_bytes_ascii by (now apply well_formed_hex_ascii).
Qed.

(** Hexadecimal decoding distributes over concatenation when the left
    part is a well-formed digest. *)
Lemma Buffer_from_hex_app (l r : string) :
  JS.well_formed_hex l = true ->
  JS.Buffer_from_hex (l ++ r)
  = (JS.Buffer_from_hex l ++ JS.Buffer_from_hex r)%list.
Proof.
  intros Hwf. rewrite (Buffer_from_hex_well_formed l Hwf).
  unfold JS.Buffer_from_hex.
  rewrite low_bytes_ascii_app by (now apply well_formed_hex_ascii).
  now apply hex_pairs_app.
Qed.

(** Nothing is decoded past a pair that is not two hexadecimal digits. *)
Lemma hex_pairs_stop (p rest : string) :
  JS.well_formed_hex p = true ->
  JS.starts_with_hex_pair rest = false ->
  JS.hex_pairs (p ++ rest) = JS.hex_pairs p.
Proof.
  intros Hp Hrest. rewrite hex_pairs_app by exact Hp.
  assert (E : JS.hex_pairs rest = []).
  { destruct rest as [|a [|b t]]; try reflexivity.
    cbn [JS.starts_with_hex_pair] in Hrest. cbn [JS.hex_pairs].
    destruct (JS.hex_digit a); [|reflexivity].
    destruct (JS.hex_digit b); [discriminate Hrest | reflexivity]. }
  rewrite E. apply app_nil_r.
Qed.

(** A well-formed string decodes to one byte per pair of characters. *)
Lemma hex_pairs_length (p : string) :
  JS.well_formed_hex p = true ->
  2 * List.length (JS.hex_pairs p) = String.length p.
Proof.
  induction p as [p IH] using (well_founded_induction
    (Wf_nat.well_founded_ltof _ String.length)).
  destruct p as [|a [|b rest]]; intros H; try reflexivity;
    try discriminate H.
  cbn [JS.well_formed_hex] in H. cbn [JS.hex_pairs String.length].
  destruct (JS.hex_digit a); [|discriminate H].
  destruct (JS.hex_digit b); [|discriminate H].
  cbn [List.length].
  assert (Hlt : Wf_nat.ltof _ String.length rest (String a (String b rest)))
    by (unfold Wf_nat.ltof; cbn; lia).
  specialize (IH rest Hlt H). lia.
Qed.

(** The byte at position [i] is made of the digits at positions [2 i]
    and [2 i + 1], the first one being the high half. *)
Lemma hex_pairs_nth (i : nat) :
  forall (p : string) (a b : ascii),
    JS.well_formed_hex p = true ->
    String.get (2 * i) p = Some a ->
    String.get (2 * i + 1) p = Some b ->
    exists hi lo : N,
      JS.hex_digit a = Some hi /\ JS.hex_digit b = Some lo /\
      nth_error (JS.hex_pairs p) i = Some (JS.byte_of_nibbles hi lo).
Proof.
  induction i as [|i IH]; intros p a b Hwf Ha Hb;
    destruct p as [|x [|y rest]]; try discriminate Ha; try discriminate Hwf;
    cbn [JS.well_formed_hex] in Hwf; cbn [JS.hex_pairs];
    destruct (JS.hex_digit x) as [hx|] eqn:Ex; try discriminate Hwf;
    destruct (JS.hex_digit y) as [hy|] eqn:Ey; try discriminate Hwf.
  - cbn in Ha, Hb. injection Ha as <-. injection Hb as <-.
    exists hx, hy. repeat split; assumption.
  - replace (2 * S i) with (S (S (2 * i))) in Ha by lia.
    replace (2 * S i + 1) with (S (S (2 * i + 1))) in Hb by lia.
    cbn [String.get] in Ha, Hb. cbn [nth_error].
    exact (IH rest a b Hwf Ha Hb).
Qed.

(** Every string splits into a well-formed part and a rest that does not
    begin with two hexadecimal digits. *)
Lemma hex_prefix_exists (s : string) :
  exists p rest : string,
    s = p ++ rest /\ JS.well_formed_hex p = true /\
    JS.starts_with_hex_pair rest = false.
Proof.
  induction s as [s IH] using (well_founded_induction
    (Wf_nat.well_founded_ltof _ String.length)).
  destruct s as [|a [|b t]].
  - exists EmptyString, EmptyString. repeat split.
  - exists EmptyString, (String a EmptyString). repeat split.
  - destruct (JS.starts_with_hex_pair (String a (String b t))) eqn:E.
    + destruct (IH t) as [p [rest [-> [Hp Hrest]]]];
        [unfold Wf_nat.ltof; cbn; lia |].
      exists (String a (String b p)), rest.
      split; [reflexivity |]. split; [|exact Hrest].
      cbn [JS.starts_with_hex_pair] in E. cbn [JS.well_formed_hex].
      destruct (JS.hex_digit a); [|discriminate E].
      destruct (JS.hex_digit b); [exact Hp | discriminate E].
    + exists EmptyString, (String a (String b t)). repeat split. exact E.
Qed.

(* ===================================================================== *)
(** ** Properties of the core *)
(* ===================================================================== *)

Section Properties.

Variable digest : list byte -> string.

(** The method of the class and the helper are the same function. *)
Lemma MerkleTree_hashPair_eq :
  MerkleTree_hashPair digest = hashPair digest.
Proof. reflexivity. Qed.

(** A tree built by the constructor's second branch. *)
Lemma MerkleTree_new_fresh (props : MerkleTreeProps) :
  precomputed props = false ->
  MerkleTree_new digest props =
  {| leaves := hashData digest (props_data props);
     layers := workerBuildTree digest (hashData digest (props_data props));
     data := props_data props;
     root := lastLayerHead
               (workerBuildTree digest (hashData digest (props_data props)))
  |}.
Proof.
  unfold precomputed, MerkleTree_new. intros H.
  destruct (props_leaves props), (props_layers props), (props_root props);
    try reflexivity.
  rewrite H. reflexivity.
Qed.

Lemma workerBuildTree_cons (leaves : list string) :
  workerBuildTree digest leaves = leaves :: buildLoop (hashPair digest) leaves.
Proof. reflexivity. Qed.

(** The step of [getProof] at a natural index. *)
Lemma proofStep_nat (layer : list string) (k : nat) :
  proofStep layer (Z.of_nat k) =
  if Nat.odd k then
    if (k - 1 <? List.length layer)%nat
    then {| sibling := nth_error layer (k - 1); direction := dir_left |}
    else {| sibling := nth_error layer k; direction := dir_right |}
  else
    if (k + 1 <? List.length layer)%nat
    then {| sibling := nth_error layer (k + 1); direction := dir_right |}
    else {| sibling := nth_error layer k; direction := dir_right |}.
Proof.
  unfold proofStep. rewrite JS_remainder_odd. unfold JS.length.
  destruct (Nat.odd k) eqn:Hodd.
  - assert (0 < k) by (destruct k; [discriminate Hodd | lia]).
    replace (Z.of_nat k - 1)%Z with (Z.of_nat (k - 1)) by lia.
    rewrite !JS_index_nat.
    destruct (Nat.ltb_spec (k - 1) (List.length layer));
      destruct (Z.ltb_spec (Z.of_nat (k - 1)) (Z.of_nat (List.length layer)));
      try lia; reflexivity.
  - replace (Z.of_nat k + 1)%Z with (Z.of_nat (k + 1)) by lia.
    rewrite !JS_index_nat.
    destruct (Nat.ltb_spec (k + 1) (List.length layer));
      destruct (Z.ltb_spec (Z.of_nat (k + 1)) (Z.of_nat (List.length layer)));
      try lia; reflexivity.
Qed.

Lemma div2_cases (k : nat) :
  (Nat.odd k = true /\ k = 2 * Nat.div2 k + 1) \/
  (Nat.odd k = false /\ k = 2 * Nat.div2 k).
Proof.
  pose proof (Nat.div2_odd k) as E.
  destruct (Nat.odd k); cbn [Nat.b2n] in E; [left | right]; split;
    (reflexivity || lia).
Qed.

Lemma div2_in_range (k n : nat) : k < n -> Nat.div2 k < Nat.div2 (S n).
Proof.
  intros H. destruct (div2_cases k) as [[_ Ek]|[_ Ek]];
    destruct (div2_cases (S n)) as [[_ En]|[_ En]]; lia.
Qed.

(** One verification step climbs from a node to its parent. *)
Lemma verifyStep_parent (layer : list string) (k : nat) (node : string) :
  nth_error layer k = Some node ->
  nth_error (nextLayer (hashPair digest) layer) (Nat.div2 k) =
  Some (verifyStep digest node (proofStep layer (Z.of_nat k))).
Proof.
  intros Hk.
  assert (Hlt : k < List.length layer)
    by (apply nth_error_Some; congruence).
  destruct (nextLayer_nth (hashPair digest) layer (Nat.div2 k)) as [x [Hx Hp]].
  { rewrite nextLayer_length. now apply div2_in_range. }
  rewrite Hp, proofStep_nat. f_equal.
  destruct (div2_cases k) as [[Hodd Ek]|[Hodd Ek]]; rewrite Hodd.
  - rewrite <- Ek, Hk.
    destruct (Nat.ltb_spec (k - 1) (List.length layer)); [|lia].
    replace (k - 1) with (2 * Nat.div2 k) by lia. rewrite Hx.
    reflexivity.
  - rewrite <- Ek in Hx. assert (x = node) by congruence. subst x.
    replace (2 * Nat.div2 k + 1) with (k + 1) by lia.
    destruct (Nat.ltb_spec (k + 1) (List.length layer)) as [H|H].
    + destruct (nth_error layer (k + 1)) eqn:E; [reflexivity |].
      apply nth_error_None in E. lia.
    + apply nth_error_None in H. rewrite H, Hk. reflexivity.
Qed.

Lemma lastLayerHead_last (ls : list (list string)) :
  lastLayerHead ls = nth_error (last ls []) 0.
Proof.
  unfold lastLayerHead, JS.length.
  destruct ls as [|l ls]; [reflexivity |].
  replace (Z.of_nat (List.length (l :: ls)) - 1)%Z
    with (Z.of_nat (List.length ls)) by (cbn [List.length]; lia).
  rewrite JS_index_nat.
  assert (E : nth_error (l :: ls) (List.length ls)
              = Some (last (l :: ls) [])).
  { revert l. induction ls as [|l' ls IH]; intros l; [reflexivity |].
    cbn [List.length nth_error]. rewrite IH. reflexivity. }
  rewrite E. unfold JS.index. reflexivity.
Qed.

Lemma lastLayerHead_cons (a b : list string) (ls : list (list string)) :
  lastLayerHead (a :: b :: ls) = lastLayerHead (b :: ls).
Proof. rewrite !lastLayerHead_last. reflexivity. Qed.

(** Folding the derived proof from a leaf reaches the head of the last
    layer. *)
Lemma verify_reaches_root (currentLayer : list string) :
  forall (k : nat) (node : string),
    nth_error currentLayer k = Some node ->
    lastLayerHead (currentLayer :: buildLoop (hashPair digest) currentLayer) =
    Some (fold_left (verifyStep digest)
            (getProof_loop
               (currentLayer :: buildLoop (hashPair digest) currentLayer)
               (Z.of_nat k))
            node).
Proof.
  funelim (buildLoop (hashPair digest) currentLayer); intros k node Hk.
  - destruct k; discriminate Hk.
  - simp buildLoop. destruct k as [|k]; [|destruct k; discriminate Hk].
    cbn in Hk. injection Hk as ->. reflexivity.
  - simp buildLoop. cbn zeta.
    set (cur := a :: b :: rest) in *.
    rewrite lastLayerHead_cons.
    cbn [getProof_loop fold_left]. rewrite JS_floor_div_nat.
    apply H. now apply verifyStep_parent.
Qed.

(** C1. In a freshly constructed tree, every leaf verifies against the
    root with the proof derived for its index:
    [verify(leaves[k], getProof(tree, k), tree.root) == true] for every
    [k] in [[0, len(leaves))]. *)
Theorem getProof_verifies (props : MerkleTreeProps) (k : nat)
        (leaf : string) :
  precomputed props = false ->
  nth_error (leaves (MerkleTree_new digest props)) k = Some leaf ->
  verifyLeaf digest leaf
    (getProof (Z.of_nat k) (layers (MerkleTree_new digest props)))
    (root (MerkleTree_new digest props)) = true.
Proof.
  intros Hfresh. rewrite (MerkleTree_new_fresh props Hfresh).
  cbn [leaves layers root]. intros Hk.
  unfold verifyLeaf, getProof. rewrite workerBuildTree_cons.
  rewrite (verify_reaches_root _ _ _ Hk). apply String.eqb_refl.
Qed.

(** C2. Layer invariants of a freshly constructed tree: each layer has
    ceil(n/2) nodes for a predecessor of [n] nodes, and each parent is
    [hashPair] of its two children, the dangling last node of an
    odd-length layer being paired with itself. *)
Theorem fresh_layers_invariant (props : MerkleTreeProps) (i : nat)
        (layer next : list string) :
  precomputed props = false ->
  nth_error (layers (MerkleTree_new digest props)) i = Some layer ->
  nth_error (layers (MerkleTree_new digest props)) (S i) = Some next ->
  List.length next = (List.length layer + 1) / 2 /\
  forall j, j < List.length next ->
    exists l,
      nth_error layer (2 * j) = Some l /\
      (2 * j + 1 < List.length layer ->
       exists r, nth_error layer (2 * j + 1) = Some r /\
                 nth_error next j = Some (hashPair digest l r)) /\
      (List.length layer <= 2 * j + 1 ->
       nth_error next j = Some (hashPair digest l l)).
Proof.
  intros Hfresh. rewrite (MerkleTree_new_fresh props Hfresh).
  cbn [layers]. rewrite workerBuildTree_cons. intros Hl Hn.
  destruct (layers_consecutive _ _ _ _ _ Hl Hn) as [_ ->].
  split.
  - rewrite nextLayer_length, Nat.div2_div. f_equal. lia.
  - intros j Hj.
    destruct (nextLayer_nth (hashPair digest) layer j Hj) as [x [Hx Hp]].
    exists x. split; [assumption |]. split.
    + intros Hin.
      destruct (nth_error layer (2 * j + 1)) as [y|] eqn:E.
      * exists y. split; [reflexivity | assumption].
      * apply nth_error_None in E. lia.
    + intros Hout. apply nth_error_None in Hout.
      rewrite Hout in Hp. assumption.
Qed.

(** *** Steps of [getProof] *)

Lemma getProof_loop_cons (l l' : list string) (ls : list (list string))
      (index : Z) :
  getProof_loop (l :: l' :: ls) index =
  proofStep l index :: getProof_loop (l' :: ls) (JS.floor_div index 2).
Proof. reflexivity. Qed.

Lemma getProof_loop_length (ls : list (list string)) :
  forall index, List.length (getProof_loop ls index) = List.length ls - 1.
Proof.
  induction ls as [|l ls IH]; intros index; [reflexivity |].
  destruct ls as [|l' ls]; [reflexivity |].
  rewrite getProof_loop_cons. cbn [List.length]. rewrite IH.
  cbn [List.length]. lia.
Qed.

Lemma currentIndexAt_succ (index : Z) (i : nat) :
  currentIndexAt (JS.floor_div index 2) i = currentIndexAt index (S i).
Proof.
  unfold currentIndexAt.
  exact (Nat.iter_swap i Z (fun c => JS.floor_div c 2) index).
Qed.

(** Whatever the index and the layers, step [i] of the proof is computed
    from layer [i] and the index halved [i] times. *)
Lemma getProof_loop_steps (ls : list (list string)) :
  forall (index : Z) (i : nat),
    i < List.length ls - 1 ->
    exists layer,
      nth_error ls i = Some layer /\
      nth_error (getProof_loop ls index) i
      = Some (proofStep layer (currentIndexAt index i)).
Proof.
  induction ls as [|l ls IH]; intros index i Hi; [cbn in Hi; lia |].
  destruct ls as [|l' ls]; [cbn in Hi; lia |].
  destruct i as [|i].
  - exists l. split; reflexivity.
  - destruct (IH (JS.floor_div index 2) i) as [layer [Hl Hs]].
    { cbn [List.length] in *. lia. }
    exists layer. split; [exact Hl |].
    rewrite getProof_loop_cons. cbn [nth_error].
    rewrite Hs, currentIndexAt_succ. reflexivity.
Qed.

(** The layers pushed by the builder halve, rounding up. *)
Lemma buildLoop_layersHalve (currentLayer : list string) :
  layersHalve (currentLayer :: buildLoop (hashPair digest) currentLayer)
  = true.
Proof.
  funelim (buildLoop (hashPair digest) currentLayer); simp buildLoop;
    try reflexivity.
  cbn zeta. set (cur := a :: b :: rest) in *.
  change (Nat.eqb (List.length (nextLayer (hashPair digest) cur))
                  (Nat.div2 (S (List.length cur)))
          && layersHalve
               (nextLayer (hashPair digest) cur
                  :: buildLoop (hashPair digest)
                       (nextLayer (hashPair digest) cur)) = true).
  rewrite H, nextLayer_length, Nat.eqb_refl. reflexivity.
Qed.

(** In layers that halve, a valid leaf index stays inside its layer
    while it is halved from layer to layer. *)
Lemma index_stays_in_range (ls : list (list string)) :
  forall (i k : nat) (layer : list string),
    layersHalve ls = true ->
    k < List.length (hd [] ls) ->
    nth_error ls i = Some layer ->
    Nat.iter i Nat.div2 k < List.length layer.
Proof.
  induction ls as [|l ls IH]; intros i k layer Hh Hk Hl.
  - destruct i; discriminate Hl.
  - destruct i as [|i].
    + cbn in Hl. injection Hl as <-. exact Hk.
    + destruct ls as [|l' ls]; [destruct i; discriminate Hl |].
      cbn [nth_error] in Hl.
      change (Nat.eqb (List.length l') (Nat.div2 (S (List.length l)))
              && layersHalve (l' :: ls) = true) in Hh.
      apply andb_prop in Hh as [Hlen Hh]. apply Nat.eqb_eq in Hlen.
      change (Nat.iter (S i) Nat.div2 k)
        with (Nat.div2 (Nat.iter i Nat.div2 k)).
      rewrite <- Nat.iter_swap.
      apply (IH i (Nat.div2 k) layer Hh); [|exact Hl].
      cbn [hd] in *. rewrite Hlen. now apply div2_in_range.
Qed.

Lemma JS_index_in_range (a : list string) (i : Z) :
  (0 <= i < JS.length a)%Z -> exists x, JS.index a i = Some x.
Proof.
  unfold JS.length. intros H.
  rewrite <- (Z2Nat.id i) by lia. rewrite JS_index_nat.
  destruct (nth_error a (Z.to_nat i)) as [x|] eqn:E; [now exists x |].
  apply nth_error_None in E. lia.
Qed.

Lemma JS_remainder_Zodd (c : Z) :
  (0 <= c)%Z -> (JS.remainder c 2 =? 1)%Z = Z.odd c.
Proof.
  intros H. unfold JS.remainder. rewrite Z.rem_mod_nonneg by lia.
  rewrite Zmod_odd. destruct (Z.odd c); reflexivity.
Qed.

(** The three cases of a proof step for an index inside its layer. *)
Lemma proofStep_in_range (layer : list string) (c : Z) :
  (0 <= c < JS.length layer)%Z ->
  (Z.odd c = true ->
   exists s, JS.index layer (c - 1) = Some s /\
             proofStep layer c = mkStep (Some s) dir_left) /\
  (Z.even c = true -> (c + 1 < JS.length layer)%Z ->
   exists s, JS.index layer (c + 1) = Some s /\
             proofStep layer c = mkStep (Some s) dir_right) /\
  (Z.even c = true -> (JS.length layer <= c + 1)%Z ->
   exists s, JS.index layer c = Some s /\
             proofStep layer c = mkStep (Some s) dir_right).
Proof.
  intros Hc. unfold proofStep. rewrite JS_remainder_Zodd by lia.
  rewrite <- Z.negb_odd. repeat split.
  - intros Hodd. rewrite Hodd.
    assert (c <> 0%Z) by (intros ->; discriminate Hodd).
    destruct (JS_index_in_range layer (c - 1)) as [s Hs]; [lia |].
    exists s. split; [exact Hs |].
    destruct (Z.ltb_spec (c - 1) (JS.length layer)); [|lia].
    now rewrite Hs.
  - intros Heven Hin. destruct (Z.odd c); [discriminate Heven |].
    destruct (JS_index_in_range layer (c + 1)) as [s Hs]; [lia |].
    exists s. split; [exact Hs |].
    destruct (Z.ltb_spec (c + 1) (JS.length layer)); [|lia].
    now rewrite Hs.
  - intros Heven Hout. destruct (Z.odd c); [discriminate Heven |].
    destruct (JS_index_in_range layer c) as [s Hs]; [lia |].
    exists s. split; [exact Hs |].
    destruct (Z.ltb_spec (c + 1) (JS.length layer)); [lia |].
    now rewrite Hs.
Qed.

(** C4. For a valid leaf index of a freshly constructed tree, [getProof]
    yields one step per non-root layer; at layer [i] with current index
    [c] the step is the node at [c-1] with direction left when [c] is
    odd, the node at [c+1] with direction right when [c] is even and
    [c+1] exists, the node at [c] itself with direction right when [c]
    is even and [c+1] does not exist; the next index is floor(c/2). *)
Theorem getProof_steps (props : MerkleTreeProps) (k : nat) :
  precomputed props = false ->
  k < List.length (leaves (MerkleTree_new digest props)) ->
  let t := MerkleTree_new digest props in
  let proof := getProof (Z.of_nat k) (layers t) in
  List.length proof = List.length (layers t) - 1 /\
  forall i, i < List.length (layers t) - 1 ->
    exists layer step,
      nth_error (layers t) i = Some layer /\
      nth_error proof i = Some step /\
      let c := currentIndexAt (Z.of_nat k) i in
      (0 <= c < JS.length layer)%Z /\
      (Z.odd c = true ->
       exists s, JS.index layer (c - 1) = Some s /\
                 step = mkStep (Some s) dir_left) /\
      (Z.even c = true -> (c + 1 < JS.length layer)%Z ->
       exists s, JS.index layer (c + 1) = Some s /\
                 step = mkStep (Some s) dir_right) /\
      (Z.even c = true -> (JS.length layer <= c + 1)%Z ->
       exists s, JS.index layer c = Some s /\
                 step = mkStep (Some s) dir_right) /\
      currentIndexAt (Z.of_nat k) (S i) = JS.floor_div c 2.
Proof.
  intros Hfresh. rewrite (MerkleTree_new_fresh props Hfresh).
  cbn [leaves layers]. intros Hk. cbn zeta. unfold getProof. split.
  - apply getProof_loop_length.
  - intros i Hi.
    destruct (getProof_loop_steps _ (Z.of_nat k) i Hi) as [layer [Hl Hs]].
    exists layer, (proofStep layer (currentIndexAt (Z.of_nat k) i)).
    split; [exact Hl |]. split; [exact Hs |].
    assert (Hc : (0 <= currentIndexAt (Z.of_nat k) i < JS.length layer)%Z).
    { rewrite currentIndexAt_nat. unfold JS.length.
      rewrite workerBuildTree_cons in Hl.
      pose proof (index_stays_in_range _ i k layer
                    (buildLoop_layersHalve _) Hk Hl). lia. }
    split; [exact Hc |].
    destruct (proofStep_in_range layer _ Hc) as [Ho [He1 He2]].
    repeat split; assumption || reflexivity.
Qed.

(** C3 (amended). [getProof] checks no range: for every integer index,
    inside or outside [[0, len(leaves))], it returns a proof with one
    step per non-root layer, step [i] being computed from layer [i] and
    the index halved [i] times. *)
Theorem getProof_never_fails (index : Z) (ls : list (list string)) :
  getProof_call index ls = JS.Returned (getProof index ls) /\
  List.length (getProof index ls) = List.length ls - 1 /\
  forall i, i < List.length ls - 1 ->
    exists layer,
      nth_error ls i = Some layer /\
      nth_error (getProof index ls) i
      = Some (proofStep layer (currentIndexAt index i)).
Proof.
  split; [reflexivity |]. split.
  - apply getProof_loop_length.
  - intros i Hi. now apply getProof_loop_steps.
Qed.

(** C5. For a non-empty list of leaves the last layer holds exactly one
    node and there are ceil(log2(len)) + 1 layers; a single leaf gives a
    single layer whose head is that leaf, the loop pushing nothing
    whatever the pairing function. The class builds the same layers as
    the worker. *)
Theorem buildLayers_shape (L : list string) :
  L <> [] ->
  List.length (last (workerBuildTree digest L) []) = 1 /\
  List.length (workerBuildTree digest L)
    = Nat.log2_up (List.length L) + 1 /\
  (forall x, L = [x] ->
     workerBuildTree digest L = [[x]] /\
     lastLayerHead (workerBuildTree digest L) = Some x /\
     forall pair, buildLoop pair L = []) /\
  buildTree digest L [L] = workerBuildTree digest L.
Proof.
  intros Hne. rewrite workerBuildTree_cons. repeat split.
  - now apply buildLoop_last.
  - cbn [List.length]. rewrite buildLoop_length. lia.
  - subst L. reflexivity.
  - subst L. reflexivity.
  - intros pair. subst L. reflexivity.
Qed.

(** *** Canonical strings *)

Lemma join_canonical (bs : list Balance) :
  JS.join ","
    (map (fun b => asset b ++ JS.numberToString (balance b)) bs)
  = canonicalBalances bs.
Proof.
  unfold JS.join. induction bs as [|b bs IH]; [reflexivity |].
  destruct bs as [|b' bs]; [reflexivity |].
  cbn [map String.concat canonicalBalances] in *. rewrite IH.
  rewrite !append_assoc. reflexivity.
Qed.

Lemma stringifyAccounts_canonical (accounts : list Account) :
  stringifyAccounts accounts = map canonicalRecord accounts.
Proof.
  unfold stringifyAccounts, canonicalRecord. apply map_ext.
  intros a. now rewrite join_canonical.
Qed.

(** C6. A structured record is hashed as the digest of its canonical
    string (identifier, colon, each asset followed by its balance, pairs
    separated by commas); a plain string is hashed as it is. *)
Theorem hashData_canonical :
  (forall accounts : list Account,
      hashData digest (Balances accounts)
      = map (fun a => digest (JS.utf8 (canonicalRecord a))) accounts) /\
  (forall strings : list string,
      hashData digest (Generic strings)
      = map (fun s => digest (JS.utf8 s)) strings).
Proof.
  split; intros l; cbn [hashData]; apply map_ext; intros a.
  - rewrite stringifyAccounts_canonical. reflexivity.
  - reflexivity.
Qed.

(** *** Whole-tree verification *)

Lemma skipn_nth_cons (A : Type) (l : list A) (i : nat) (x : A) :
  nth_error l i = Some x -> skipn i l = x :: skipn (S i) l.
Proof.
  revert i. induction l as [|y l IH]; intros [|i] H; try discriminate H.
  - cbn in H. injection H as ->. reflexivity.
  - cbn [nth_error] in H. exact (IH i H).
Qed.

Lemma passes_failures (t : MerkleTree) (from count : nat) :
  passes digest t from count + failures digest t from count = count.
Proof.
  unfold passes, failures. revert from.
  induction count as [|count IH]; intros from; [reflexivity |].
  cbn [seq filter]. specialize (IH (S from)).
  destruct (leafVerifies digest t from); cbn [negb List.length]; lia.
Qed.

(** Loop invariant of [verifyTree]: started at index [from] with the
    remaining leaves, it adds to each counter the number of remaining
    indices that pass, respectively fail. *)
Lemma verifyTree_loop_counts (t : MerkleTree) (count : nat) :
  forall (from completed errors : nat),
    from + count = List.length (leaves t) ->
    verifyTree_loop digest t (skipn from (leaves t)) (Z.of_nat from)
                    completed errors
    = (completed + passes digest t from count,
       errors + failures digest t from count).
Proof.
  unfold passes, failures.
  induction count as [|count IH]; intros from completed errors Hlen.
  - rewrite skipn_all2 by lia. cbn. f_equal; lia.
  - destruct (nth_error (leaves t) from) as [leaf|] eqn:E.
    2: { apply nth_error_None in E. lia. }
    rewrite (skipn_nth_cons _ _ _ _ E). cbn [verifyTree_loop seq filter].
    replace (Z.of_nat from + 1)%Z with (Z.of_nat (S from)) by lia.
    assert (Hv : verifyLeaf digest leaf
                   (getProof (Z.of_nat from) (layers t)) (root t)
                 = leafVerifies digest t from)
      by (unfold leafVerifies; now rewrite E).
    rewrite Hv.
    destruct (leafVerifies digest t from);
      cbn [negb List.length]; rewrite IH by lia; f_equal; lia.
Qed.

Lemma handleValidate_loop_eq (t : MerkleTree) (pending : list string) :
  forall i completed errors,
    handleValidate_loop digest t pending i completed errors
    = verifyTree_loop digest t pending i completed errors.
Proof.
  induction pending as [|leaf rest IH]; intros i c e; [reflexivity |].
  cbn [handleValidate_loop verifyTree_loop].
  destruct (verifyLeaf digest leaf (getProof i (layers t)) (root t));
    cbn [negb]; apply IH.
Qed.

(** C7. [verifyTree] checks every leaf index with its derived proof
    against the root of the tree: the pass count is the number of
    indices that verify and the failure count the number of those that
    do not (no index is skipped after a failure), the counts add up to
    the number of leaves, the flag is true exactly when there is no
    failure, and the call always returns. The worker's [handleValidate]
    reports the same three values. *)
Theorem verifyTree_counts (t : MerkleTree) :
  let r := verifyTree digest t in
  let n := List.length (leaves t) in
  completed r = List.length (filter (leafVerifies digest t) (seq 0 n)) /\
  errors r
    = List.length
        (filter (fun i => negb (leafVerifies digest t i)) (seq 0 n)) /\
  completed r + errors r = n /\
  (status r = true <-> errors r = 0) /\
  verifyTree_call digest t = JS.Returned r /\
  handleValidate digest t
    = mkValidateMessage (status r) (completed r) (errors r).
Proof.
  cbn zeta. unfold verifyTree_call, handleValidate, verifyTree.
  rewrite handleValidate_loop_eq.
  pose proof (verifyTree_loop_counts t (List.length (leaves t)) 0 0 0
                eq_refl) as E.
  cbn [skipn Z.of_nat] in E. rewrite E. cbn [completed errors status].
  cbn [Nat.add]. repeat split.
  - apply passes_failures.
  - apply Nat.eqb_eq.
  - apply Nat.eqb_eq.
Qed.

(** C8 (amended). [hashPair] never fails. It concatenates the two
    strings, left first, and reads the code units of the concatenation
    two by two through their low bytes: the low bytes split into a
    well-formed part and a rest that does not begin with two hexadecimal
    digits, and what is digested is the well-formed part alone, one byte
    per pair of digits, the first digit being the high half; the rest is
    dropped without an error. When the left argument is well-formed
    hexadecimal this is the digest of the left bytes followed by the
    bytes decoded from the right argument. *)
Theorem hashPair_decodes (l r : string) :
  hashPair_call digest l r = JS.Returned (hashPair digest l r) /\
  MerkleTree_hashPair digest l r = hashPair digest l r /\
  (exists p rest : string,
      JS.low_bytes (l ++ r) = p ++ rest /\
      JS.well_formed_hex p = true /\
      JS.starts_with_hex_pair rest = false) /\
  (forall p rest : string,
      JS.low_bytes (l ++ r) = p ++ rest ->
      JS.well_formed_hex p = true ->
      JS.starts_with_hex_pair rest = false ->
      hashPair digest l r = digest (JS.hex_pairs p) /\
      2 * List.length (JS.hex_pairs p) = String.length p /\
      (forall (i : nat) (a b : ascii),
          String.get (2 * i) p = Some a ->
          String.get (2 * i + 1) p = Some b ->
          exists hi lo : N,
            JS.hex_digit a = Some hi /\ JS.hex_digit b = Some lo /\
            nth_error (JS.hex_pairs p) i
            = Some (JS.byte_of_nibbles hi lo))) /\
  (JS.well_formed_hex l = true ->
   hashPair digest l r
   = digest (JS.hex_pairs l ++ JS.Buffer_from_hex r)%list).
Proof.
  split; [reflexivity |]. split; [reflexivity |].
  split; [apply hex_prefix_exists |]. split.
  - intros p rest Hsplit Hp Hrest. split; [|split].
    + unfold hashPair, JS.Buffer_from_hex. rewrite Hsplit.
      now rewrite hex_pairs_stop.
    + now apply hex_pairs_length.
    + intros i a b. now apply hex_pairs_nth.
  - intros Hwf. unfold hashPair.
    rewrite Buffer_from_hex_app by exact Hwf.
    now rewrite Buffer_from_hex_well_formed.
Qed.

(** C9 (amended). Given leaves, layers and a non-empty root, the
    constructor skips hashing and stores the four parts of the bundle as
    they are; it validates nothing. *)
Theorem precomputed_bundle_stored (props : MerkleTreeProps)
        (lv : list string) (ly : list (list string)) (r : string) :
  props_leaves props = Some lv ->
  props_layers props = Some ly ->
  props_root props = Some r ->
  r <> EmptyString ->
  MerkleTree_new digest props
  = {| leaves := lv; layers := ly; data := props_data props;
       root := Some r |}.
Proof.
  intros Hlv Hly Hr Hne. unfold MerkleTree_new. rewrite Hlv, Hly, Hr.
  apply String.eqb_neq in Hne. rewrite Hne. reflexivity.
Qed.

Lemma hashData_length (d : MerkleTreeData) :
  List.length (hashData digest d) = records d.
Proof. destruct d; cbn [hashData records]; apply length_map. Qed.

(** C10. A fresh tree over an empty record list has the single empty
    layer [[[]]] and an undefined root (the read at position 0 of that
    empty layer), so none of its layers has length one. *)
Theorem empty_fresh_tree (props : MerkleTreeProps) :
  precomputed props = false ->
  records (props_data props) = 0 ->
  let t := MerkleTree_new digest props in
  leaves t = [] /\
  layers t = [[]] /\
  root t = JS.undefined /\
  root t = JS.index (last (layers t) []) 0 /\
  forall l, In l (layers t) -> List.length l <> 1.
Proof.
  intros Hfresh Hempty. cbn zeta.
  rewrite (MerkleTree_new_fresh props Hfresh). cbn [leaves layers root].
  assert (E : hashData digest (props_data props) = []).
  { apply length_zero_iff_nil. now rewrite hashData_length. }
  rewrite E. repeat split.
  intros l [<- | []]. discriminate.
Qed.

(** X16. A fresh tree over a non-empty record list satisfies the
    structural invariants 1 to 3. *)
Lemma fresh_tree_structurallyValid (props : MerkleTreeProps) :
  precomputed props = false ->
  records (props_data props) <> 0 ->
  structurallyValid (MerkleTree_new digest props) = true.
Proof.
  intros Hfresh Hne. rewrite (MerkleTree_new_fresh props Hfresh).
  unfold structurallyValid, leafLayerAligned, lastLayerIsRoot.
  cbn [layers data root]. rewrite workerBuildTree_cons.
  rewrite hashData_length, Nat.eqb_refl, buildLoop_layersHalve.
  rewrite lastLayerHead_last.
  assert (Hnil : hashData digest (props_data props) <> []).
  { intros E. apply Hne. now rewrite <- hashData_length, E. }
  pose proof (buildLoop_last (hashPair digest) _ Hnil) as Hlast.
  destruct (last _ []) as [|r [|r' tl]]; try discriminate Hlast.
  cbn. apply String.eqb_refl.
Qed.

End Properties.

(* ===================================================================== *)
(** ** The properties on concrete trees *)
(* ===================================================================== *)

Import Examples.

(** Known answers of the digest. *)
Example sha256_empty :
  sha256 []
  = "e3b0c44298fc1c149afbf4c8996fb92427ae41e4649b934ca495991b7852b855".
Proof. vm_compute. reflexivity. Qed.

Example sha256_abc :
  sha256 (JS.utf8 "abc")
  = "ba7816bf8f01cfea414140de5dae2223b00361a396177a9cb410ff61f20015ad".
Proof. vm_compute. reflexivity. Qed.

(** The three-leaf scenario: layers, root and the proof of index 1. *)
Example abc_layers :
  leaves abc = [Ha; Hb; Hc] /\
  layers abc = [[Ha; Hb; Hc]; [Hab; Hcc]; [Habcc]] /\
  root abc = Some Habcc /\
  Hab = hashPair sha256 Ha Hb /\
  Hcc = hashPair sha256 Hc Hc /\
  Habcc = hashPair sha256 Hab Hcc.
Proof. vm_compute. repeat split; reflexivity. Qed.

Example abc_proof_1 :
  getProof 1 (layers abc)
  = [ {| sibling := Some Ha; direction := dir_left |};
      {| sibling := Some Hcc; direction := dir_right |} ].
Proof. vm_compute. reflexivity. Qed.

Example alice_canonical :
  stringifyAccounts [alice] = ["ACC00000001:eth12,btc0"].
Proof. vm_compute. reflexivity. Qed.

(** Numbers beyond 53 bits are rounded, and from 21 digits on they are
    written with an exponent. *)
Example numberToString_values :
  JS.numberToString 0 = "0"%string /\
  JS.numberToString (-12) = "-12"%string /\
  JS.numberToString (2 ^ 53 + 1) = "9007199254740992"%string /\
  JS.numberToString (10 ^ 20) = "100000000000000000000"%string /\
  JS.numberToString (10 ^ 21) = "1e+21"%string /\
  JS.numberToString 123456789012345678901234
  = "1.2345678901234569e+23"%string /\
  JS.numberToString (- 2 ^ 1024) = "-Infinity"%string.
Proof. repeat split; vm_compute; reflexivity. Qed.

(** With a left argument of odd length, the decoded concatenation is not
    the concatenation of the decoded arguments. *)
Example hashPair_odd_left :
  JS.Buffer_from_hex ("abc" ++ "de12")
  <> (JS.Buffer_from_hex "abc" ++ JS.Buffer_from_hex "de12")%list.
Proof. vm_compute. discriminate. Qed.

Lemma getProof_verifies_witness :
  precomputed (freshProps (Generic ["a"; "b"; "c"])) = false /\
  nth_error (leaves abc) 1 = Some Hb /\
  verifyLeaf sha256 Hb (getProof 1 (layers abc)) (root abc) = true.
Proof.
  split; [reflexivity |]. split; [vm_compute; reflexivity |].
  apply (getProof_verifies sha256 (freshProps (Generic ["a"; "b"; "c"]))
                           1 Hb).
  - reflexivity.
  - vm_compute. reflexivity.
Defined.

Lemma fresh_layers_invariant_witness :
  List.length [Hab; Hcc] = (List.length [Ha; Hb; Hc] + 1) / 2 /\
  forall j, j < List.length [Hab; Hcc] ->
    exists l,
      nth_error [Ha; Hb; Hc] (2 * j) = Some l /\
      (2 * j + 1 < List.length [Ha; Hb; Hc] ->
       exists r, nth_error [Ha; Hb; Hc] (2 * j + 1) = Some r /\
                 nth_error [Hab; Hcc] j = Some (hashPair sha256 l r)) /\
      (List.length [Ha; Hb; Hc] <= 2 * j + 1 ->
       nth_error [Hab; Hcc] j = Some (hashPair sha256 l l)).
Proof.
  apply (fresh_layers_invariant sha256
           (freshProps (Generic ["a"; "b"; "c"])) 0).
  - reflexivity.
  - vm_compute. reflexivity.
  - vm_compute. reflexivity.
Defined.

Lemma getProof_steps_witness :
  List.length (getProof 1 (layers abc)) = List.length (layers abc) - 1 /\
  forall i, i < List.length (layers abc) - 1 ->
    exists layer step,
      nth_error (layers abc) i = Some layer /\
      nth_error (getProof 1 (layers abc)) i = Some step /\
      let c := currentIndexAt 1 i in
      (0 <= c < JS.length layer)%Z /\
      (Z.odd c = true ->
       exists s, JS.index layer (c - 1) = Some s /\
                 step = mkStep (Some s) dir_left) /\
      (Z.even c = true -> (c + 1 < JS.length layer)%Z ->
       exists s, JS.index layer (c + 1) = Some s /\
                 step = mkStep (Some s) dir_right) /\
      (Z.even c = true -> (JS.length layer <= c + 1)%Z ->
       exists s, JS.index layer c = Some s /\
                 step = mkStep (Some s) dir_right) /\
      currentIndexAt 1 (S i) = JS.floor_div c 2.
Proof.
  apply (getProof_steps sha256 (freshProps (Generic ["a"; "b"; "c"])) 1).
  - reflexivity.
  - vm_compute. lia.
Defined.

Lemma buildLayers_shape_witness :
  [Ha; Hb; Hc] <> [] /\
  List.length (last (workerBuildTree sha256 [Ha; Hb; Hc]) []) = 1 /\
  List.length (workerBuildTree sha256 [Ha; Hb; Hc])
    = Nat.log2_up (List.length [Ha; Hb; Hc]) + 1.
Proof.
  assert (Hne : [Ha; Hb; Hc] <> []) by discriminate.
  split; [exact Hne |].
  destruct (buildLayers_shape sha256 [Ha; Hb; Hc] Hne) as [H1 [H2 _]].
  split; assumption.
Defined.

Lemma getProof_never_fails_witness :
  getProof_call 5 (layers abc) = JS.Returned (getProof 5 (layers abc)) /\
  List.length (getProof 5 (layers abc)) = List.length (layers abc) - 1.
Proof.
  destruct (getProof_never_fails 5 (layers abc)) as [H1 [H2 _]].
  split; assumption.
Defined.

(** C3, as stated, fails: index 5 is outside [[0, 3)], yet the call
    returns a proof, made of two steps whose siblings are [undefined]. *)
Lemma getProof_out_of_range_returns :
  ~ (0 <= 5 < JS.length (leaves abc))%Z /\
  getProof_call 5 (layers abc)
  = JS.Returned [ {| sibling := JS.undefined; direction := dir_right |};
                  {| sibling := JS.undefined; direction := dir_right |} ] /\
  getProof_call 5 (layers abc) <> JS.Thrown JS.IndexOutOfRange.
Proof.
  split; [vm_compute; intros [_ H]; discriminate H |].
  split; [vm_compute; reflexivity | discriminate].
Qed.

Lemma hashData_canonical_witness :
  hashData sha256 (Balances [alice])
  = [sha256 (JS.utf8 "ACC00000001:eth12,btc0")] /\
  hashData sha256 (Generic ["a"]) = [sha256 (JS.utf8 "a")].
Proof.
  destruct (hashData_canonical sha256) as [Hb Hg].
  split; [exact (Hb [alice]) | exact (Hg ["a"])].
Defined.

Lemma verifyTree_counts_witness :
  completed (verifyTree sha256 abc) + errors (verifyTree sha256 abc) = 3 /\
  (status (verifyTree sha256 abc) = true
   <-> errors (verifyTree sha256 abc) = 0) /\
  verifyTree_call sha256 abc = JS.Returned (verifyTree sha256 abc).
Proof.
  destruct (verifyTree_counts sha256 abc) as [_ [_ [H1 [H2 [H3 _]]]]].
  split; [exact H1 |]. split; [exact H2 | exact H3].
Defined.

Lemma hashPair_decodes_witness :
  hashPair sha256 "12zz34" "ff" = sha256 [x12] /\
  hashPair sha256 Ha Hb = sha256 (JS.hex_pairs Ha ++ JS.hex_pairs Hb)%list.
Proof.
  split.
  - destruct (hashPair_decodes sha256 "12zz34" "ff") as [_ [_ [_ [H _]]]].
    exact (proj1 (H "12"%string "zz34ff"%string eq_refl eq_refl eq_refl)).
  - destruct (hashPair_decodes sha256 Ha Hb) as [_ [_ [_ [_ H]]]].
    rewrite H by (vm_compute; reflexivity).
    rewrite Buffer_from_hex_well_formed by (vm_compute; reflexivity).
    reflexivity.
Defined.

(** The decoder reads a code unit by its low byte: the units U+0130 and
    U+0131 count as the digits 0 and 1. *)
Example hashPair_low_bytes :
  JS.code_units (String "196" (String "176" (String "196" (String "177"
                                                             EmptyString))))
  = [0x130%N; 0x131%N] /\
  hashPair sha256
    (String "196" (String "176" (String "196" (String "177" EmptyString))))
    "ff"
  = sha256 [x01; xff].
Proof. split; vm_compute; reflexivity. Qed.

(** C8, as stated, fails: ["zz"] is not hexadecimal, yet the call returns
    a digest, that of the empty byte sequence. *)
Lemma hashPair_malformed_returns :
  JS.well_formed_hex "zz" = false /\
  hashPair_call sha256 "zz" Ha = JS.Returned (sha256 []) /\
  hashPair_call sha256 "zz" Ha <> JS.Thrown JS.DecodeError.
Proof.
  split; [reflexivity |]. split; [reflexivity | discriminate].
Qed.

Lemma precomputed_bundle_stored_witness :
  MerkleTree_new sha256 bogusBundle
  = {| leaves := ["00"];
       layers := [["11"; "22"]; ["33"; "44"; "55"]];
       data := Generic ["a"; "b"; "c"];
       root := Some "66" |}.
Proof.
  apply (precomputed_bundle_stored sha256 bogusBundle
           ["00"] [["11"; "22"]; ["33"; "44"; "55"]] "66");
    try reflexivity.
  discriminate.
Defined.

(** C9, as stated, fails: a bundle with all three parts present is
    accepted although it breaks each of the invariants 1 to 3. *)
Lemma bogus_bundle_accepted :
  precomputed bogusBundle = true /\
  leafLayerAligned (MerkleTree_new sha256 bogusBundle) = false /\
  layersHalve (layers (MerkleTree_new sha256 bogusBundle)) = false /\
  lastLayerIsRoot (MerkleTree_new sha256 bogusBundle) = false /\
  structurallyValid (MerkleTree_new sha256 bogusBundle) = false.
Proof. repeat split. Qed.

Lemma empty_fresh_tree_witness :
  leaves emptyTree = [] /\
  layers emptyTree = [[]] /\
  root emptyTree = JS.undefined /\
  root emptyTree = JS.index (last (layers emptyTree) []) 0 /\
  forall l, In l (layers emptyTree) -> List.length l <> 1.
Proof.
  apply (empty_fresh_tree sha256 (freshProps (Generic []))); reflexivity.
Defined.


(* ===================================================================== *)
(** ** Further properties: validation, reconstruction and export *)
(* ===================================================================== *)

Section TreeProperties.

Variable digest : list byte -> string.

(** In a fresh tree the derived proof of a leaf folds to the root. *)
Lemma fresh_leaf_reaches_root (props : MerkleTreeProps) (k : nat)
      (leaf : string) :
  precomputed props = false ->
  nth_error (leaves (MerkleTree_new digest props)) k = Some leaf ->
  root (MerkleTree_new digest props)
  = Some (fold_left (verifyStep digest)
            (getProof (Z.of_nat k) (layers (MerkleTree_new digest props)))
            leaf).
Proof.
  intros Hfresh. rewrite (MerkleTree_new_fresh digest props Hfresh).
  cbn [leaves layers root]. intros Hk. unfold getProof.
  rewrite workerBuildTree_cons. now apply verify_reaches_root.
Qed.

Lemma passes_all (t : MerkleTree) (count : nat) :
  forall from,
    (forall i, from <= i < from + count -> leafVerifies digest t i = true) ->
    passes digest t from count = count /\ failures digest t from count = 0.
Proof.
  unfold passes, failures.
  induction count as [|count IH]; intros from H; [split; reflexivity |].
  cbn [seq filter]. rewrite (H from) by lia. cbn [negb List.length].
  destruct (IH (S from)) as [Hp Hf]; [intros i Hi; apply H; lia |].
  rewrite Hp, Hf. split; reflexivity.
Qed.

Lemma failures_all (t : MerkleTree) (count : nat) :
  forall from,
    (forall i, from <= i < from + count -> leafVerifies digest t i = false) ->
    passes digest t from count = 0 /\ failures digest t from count = count.
Proof.
  unfold passes, failures.
  induction count as [|count IH]; intros from H; [split; reflexivity |].
  cbn [seq filter]. rewrite (H from) by lia. cbn [negb List.length].
  destruct (IH (S from)) as [Hp Hf]; [intros i Hi; apply H; lia |].
  rewrite Hp, Hf. split; reflexivity.
Qed.

Lemma verifyTree_result (t : MerkleTree) :
  verifyTree digest t
  = {| status := Nat.eqb (failures digest t 0 (List.length (leaves t))) 0;
       completed := passes digest t 0 (List.length (leaves t));
       errors := failures digest t 0 (List.length (leaves t)) |}.
Proof.
  unfold verifyTree.
  pose proof (verifyTree_loop_counts digest t (List.length (leaves t)) 0 0 0
                eq_refl) as E.
  cbn [skipn Z.of_nat] in E. rewrite E. reflexivity.
Qed.

Lemma handleValidate_result (t : MerkleTree) :
  handleValidate digest t
  = {| msg_success := status (verifyTree digest t);
       msg_completed := completed (verifyTree digest t);
       msg_errors := errors (verifyTree digest t) |}.
Proof.
  unfold handleValidate, verifyTree. rewrite handleValidate_loop_eq.
  destruct (verifyTree_loop digest t (leaves t) 0 0 0). reflexivity.
Qed.

Lemma fresh_verifyTree (props : MerkleTreeProps) :
  precomputed props = false ->
  let t := MerkleTree_new digest props in
  verifyTree digest t
  = {| status := true;
       completed := List.length (leaves t);
       errors := 0 |} /\
  handleValidate digest t
  = {| msg_success := true;
       msg_completed := List.length (leaves t);
       msg_errors := 0 |}.
Proof.
  intros Hfresh t.
  assert (Hall : forall i, 0 <= i < 0 + List.length (leaves t) ->
                           leafVerifies digest t i = true).
  { intros i Hi. unfold leafVerifies.
    destruct (nth_error (leaves t) i) as [leaf|] eqn:E.
    - unfold verifyLeaf. unfold t in *.
      rewrite (fresh_leaf_reaches_root props i leaf Hfresh E).
      apply String.eqb_refl.
    - apply nth_error_None in E. lia. }
  destruct (passes_all t _ 0 Hall) as [Hp Hf].
  rewrite handleValidate_result, verifyTree_result, Hp, Hf.
  split; reflexivity.
Qed.

(** X1. Validating a freshly constructed tree always succeeds: every
    leaf is counted as verified and none as an error, by the method of
    the class and by the worker alike. *)
Theorem fresh_tree_validates (props : MerkleTreeProps) :
  precomputed props = false ->
  let t := MerkleTree_new digest props in
  verifyTree digest t
  = {| status := true;
       completed := List.length (leaves t);
       errors := 0 |} /\
  handleValidate digest t
  = {| msg_success := true;
       msg_completed := List.length (leaves t);
       msg_errors := 0 |}.
Proof. exact (fresh_verifyTree props). Qed.

(** X2. Taking the layers of a fresh tree with another root makes the
    validation fail for every leaf. *)
Theorem wrong_root_fails_everywhere (props : MerkleTreeProps)
        (claimed : string) :
  precomputed props = false ->
  records (props_data props) <> 0 ->
  claimed <> EmptyString ->
  root (MerkleTree_new digest props) <> Some claimed ->
  let t := MerkleTree_new digest props in
  verifyTree digest
    (MerkleTree_new digest
       {| props_data := data t;
          props_leaves := Some (leaves t);
          props_layers := Some (layers t);
          props_root := Some claimed |})
  = {| status := false;
       completed := 0;
       errors := List.length (leaves t) |}.
Proof.
  intros Hfresh Hne Hclaimed Hroot t.
  assert (Hnew : MerkleTree_new digest
            {| props_data := data t;
               props_leaves := Some (leaves t);
               props_layers := Some (layers t);
               props_root := Some claimed |}
          = {| leaves := leaves t; layers := layers t; data := data t;
               root := Some claimed |}).
  { unfold MerkleTree_new at 1. cbn [props_leaves props_layers props_root].
    apply String.eqb_neq in Hclaimed. rewrite Hclaimed. reflexivity. }
  rewrite Hnew. set (t' := {| leaves := leaves t; layers := layers t;
                              data := data t; root := Some claimed |}).
  assert (Hall : forall i, 0 <= i < 0 + List.length (leaves t') ->
                           leafVerifies digest t' i = false).
  { intros i Hi. unfold leafVerifies. cbn [leaves layers root t'].
    destruct (nth_error (leaves t) i) as [leaf|] eqn:E; [|reflexivity].
    unfold verifyLeaf. apply String.eqb_neq. intros Heq.
    apply Hroot. subst t.
    rewrite (fresh_leaf_reaches_root props i leaf Hfresh E). now rewrite Heq. }
  destruct (failures_all t' _ 0 Hall) as [Hp Hf].
  rewrite verifyTree_result, Hp, Hf. cbn [leaves t'].
  assert (Hlen : List.length (leaves t) <> 0).
  { subst t. rewrite (MerkleTree_new_fresh digest props Hfresh).
    cbn [leaves]. now rewrite hashData_length. }
  apply Nat.eqb_neq in Hlen. rewrite Hlen. reflexivity.
Qed.

(** X3. Round trip: constructing a tree again from the leaves, layers and
    root of a fresh tree gives back that tree, whether the root is a
    non-empty string (the bundle is stored) or not (everything is
    computed again). *)
Theorem reconstruction_round_trip (props : MerkleTreeProps) :
  precomputed props = false ->
  let t := MerkleTree_new digest props in
  MerkleTree_new digest
    {| props_data := data t;
       props_leaves := Some (leaves t);
       props_layers := Some (layers t);
       props_root := root t |}
  = t.
Proof.
  intros Hfresh t. subst t.
  rewrite (MerkleTree_new_fresh digest props Hfresh).
  unfold MerkleTree_new. cbn [props_data props_leaves props_layers
                              props_root leaves layers data root].
  destruct (lastLayerHead _) as [r|] eqn:Er; [|reflexivity].
  destruct (String.eqb r EmptyString); cbn [negb]; [|reflexivity].
  rewrite <- Er. reflexivity.
Qed.

(** X4. [generateMerkleTree] resolves, and the leaves and layers the
    worker posts are not used: as [merkleTreeWorker] passes no root, the
    constructor computes the tree again from the accounts. The tree
    agrees with what the worker posted and passes validation. Asked for
    a tree over a non-empty list of strings, [merkleTreeWorker] never
    settles, the worker answering its ["generateMerkleBalances"] request
    with an error; over the empty list it resolves to the empty tree.
    The handler of ["generateMerkleGeneric"], which is never requested,
    posts the leaves and layers the constructor builds from the same
    strings. *)
Theorem worker_result_recomputed (accounts : list Account)
        (s : string) (strings : list string) :
  (exists t : MerkleTree,
      generateMerkleTree digest accounts = Resolved t /\
      t = MerkleTree_new digest
            {| props_data := Balances accounts; props_leaves := None;
               props_layers := None; props_root := None |} /\
      leaves t = msg_leaves (handleGenerateMerkleBalances digest accounts) /\
      layers t = msg_layers (handleGenerateMerkleBalances digest accounts) /\
      status (verifyTree digest t) = true) /\
  merkleTreeWorker digest (Generic (s :: strings)) = Pending /\
  merkleTreeWorker digest (Generic [])
  = Resolved {| leaves := []; layers := [[]]; data := Generic [];
                root := JS.undefined |} /\
  (let t := MerkleTree_new digest
              {| props_data := Generic (s :: strings); props_leaves := None;
                 props_layers := None; props_root := None |} in
   let posted := handleGenerateMerkleGeneric digest (s :: strings) in
   leaves t = msg_leaves posted /\ layers t = msg_layers posted).
Proof.
  split; [|split; [reflexivity | split]].
  - eexists. split; [reflexivity |]. split; [reflexivity |].
    split; [reflexivity |]. split; [reflexivity |].
    match goal with
    | |- status (verifyTree digest (MerkleTree_new digest ?p)) = true =>
        destruct (fresh_verifyTree p eq_refl) as [E _]
    end.
    rewrite E. reflexivity.
  - unfold merkleTreeWorker, worker_onmessage, handleGenerateMerkleBalances.
    cbn [hashData map stringifyAccounts msg_leaves msg_layers].
    unfold MerkleTree_new, buildTree.
    cbn [props_leaves props_layers props_root props_data JS.undefined
         hashData map].
    rewrite buildLoop_short by (cbn; lia). reflexivity.
  - cbn zeta. split; reflexivity.
Qed.

(** *** Export *)

Lemma Array_map_indexed_nth (A B : Type) (f : A -> Z -> B) (a : list A) :
  forall (index : Z) (k : nat),
    nth_error (Array_map_indexed f a index) k
    = option_map (fun x => f x (index + Z.of_nat k)%Z) (nth_error a k).
Proof.
  induction a as [|x a IH]; intros index k.
  - destruct k; reflexivity.
  - destruct k as [|k].
    + cbn. now rewrite Z.add_0_r.
    + cbn [Array_map_indexed nth_error]. rewrite IH.
      replace (index + 1 + Z.of_nat k)%Z with (index + Z.of_nat (S k))%Z
        by lia.
      reflexivity.
Qed.

Lemma Array_map_indexed_length (A B : Type) (f : A -> Z -> B)
      (a : list A) :
  forall index : Z,
    List.length (Array_map_indexed f a index) = List.length a.
Proof.
  induction a as [|x a IH]; intros index; [reflexivity |].
  cbn [Array_map_indexed List.length]. now rewrite IH.
Qed.

Lemma hashData_nth (d : MerkleTreeData) (k : nat) :
  nth_error (hashData digest d) k
  = option_map (leafHash digest) (dataAt d (Z.of_nat k)).
Proof.
  unfold dataAt.
  destruct d as [accounts|strings]; cbn [hashData]; rewrite JS_index_nat.
  - rewrite nth_error_map.
    destruct (nth_error accounts k) as [a|]; [|reflexivity].
    cbn [option_map]. unfold leafHash, hashGeneric. cbn [recordString].
    rewrite stringifyAccounts_canonical. reflexivity.
  - rewrite nth_error_map.
    destruct (nth_error strings k) as [s|]; reflexivity.
Qed.

(** X5. Export fidelity: the exported object of a fresh tree lists one
    entry per leaf; each entry carries its record, its hash is the leaf
    digest of that record, and its proof verifies the hash against the
    exported root. The worker's [handleExport] serialises the same
    object. *)
Theorem export_entries_verify (props : MerkleTreeProps) :
  precomputed props = false ->
  let t := MerkleTree_new digest props in
  let exported := MerkleTree_export t in
  handleExport_data t = exported /\
  List.length (export_leaves exported) = records (props_data props) /\
  forall (k : nat) (entry : ExportLeaf),
    nth_error (export_leaves exported) k = Some entry ->
    export_index entry = Z.of_nat k /\
    (exists r, export_data entry = Some r /\
               dataAt (props_data props) (Z.of_nat k) = Some r /\
               export_hash entry = leafHash digest r) /\
    verifyLeaf digest (export_hash entry) (export_proof entry)
               (export_root exported) = true.
Proof.
  intros Hfresh t exported. split; [reflexivity |].
  assert (Hleaves : leaves t = hashData digest (props_data props)).
  { subst t. now rewrite (MerkleTree_new_fresh digest props Hfresh). }
  assert (Hdata : data t = props_data props).
  { subst t. now rewrite (MerkleTree_new_fresh digest props Hfresh). }
  split.
  - rewrite <- (hashData_length digest), <- Hleaves.
    subst exported. unfold MerkleTree_export. cbn [export_leaves].
    apply Array_map_indexed_length.
  - intros k entry Hk. subst exported. unfold MerkleTree_export in *.
    cbn [export_leaves export_root] in *.
    rewrite Array_map_indexed_nth in Hk. cbn [Z.add] in Hk.
    destruct (nth_error (leaves t) k) as [leaf|] eqn:E; [|discriminate Hk].
    cbn [option_map] in Hk. injection Hk as <-.
    cbn [export_index export_hash export_data export_proof].
    split; [reflexivity |]. split.
    + rewrite Hdata. rewrite Hleaves, hashData_nth in E.
      destruct (dataAt (props_data props) (Z.of_nat k)) as [r|];
        [|discriminate E].
      cbn [option_map] in E. injection E as <-.
      exists r. repeat split.
    + unfold verifyLeaf. subst t.
      rewrite (fresh_leaf_reaches_root props k leaf Hfresh E).
      apply String.eqb_refl.
Qed.

End TreeProperties.

(* ===================================================================== *)
(** ** Further properties: what the self-pairing rule lets through *)
(* ===================================================================== *)

Section SelfPairing.

Variable digest : list byte -> string.

Lemma nextLayer_duplicate_last (pair : string -> string -> string)
      (l : list string) (x : string) :
  Nat.even (List.length l) = true ->
  nextLayer pair (l ++ [x; x]) = nextLayer pair (l ++ [x]).
Proof.
  induction l as [| a | a b rest IH] using list_pair_ind; intros Heven.
  - reflexivity.
  - discriminate Heven.
  - cbn [app nextLayer]. f_equal. apply IH. exact Heven.
Qed.

Lemma buildLoop_duplicate_last (l : list string) (x : string) :
  l <> [] ->
  Nat.even (List.length l) = true ->
  buildLoop (hashPair digest) (l ++ [x; x])
  = buildLoop (hashPair digest) (l ++ [x]).
Proof.
  intros Hne Heven.
  assert (Hlen : 0 < List.length l) by (destruct l; [congruence | cbn; lia]).
  rewrite (buildLoop_long (hashPair digest) (l ++ [x; x]))
    by (rewrite length_app; cbn; lia).
  rewrite (buildLoop_long (hashPair digest) (l ++ [x]))
    by (rewrite length_app; cbn; lia).
  now rewrite nextLayer_duplicate_last.
Qed.

Lemma lastLayerHead_upper (a b : list string) (ls : list (list string)) :
  ls <> [] -> lastLayerHead (a :: ls) = lastLayerHead (b :: ls).
Proof.
  intros Hne. destruct ls as [|l ls]; [congruence |].
  now rewrite !lastLayerHead_cons.
Qed.

(** X6. Appending a copy of the last record to a list with an odd
    number of records, three or more, leaves every layer above the leaves
    and the root unchanged: the two data sets have the same commitment. *)
Theorem duplicate_last_record_same_root :
  let tree data := MerkleTree_new digest (freshProps data) in
  (forall (strings : list string) (s : string),
      strings <> [] -> Nat.even (List.length strings) = true ->
      root (tree (Generic (strings ++ [s; s])))
      = root (tree (Generic (strings ++ [s]))) /\
      tl (layers (tree (Generic (strings ++ [s; s]))))
      = tl (layers (tree (Generic (strings ++ [s]))))) /\
  (forall (accounts : list Account) (a : Account),
      accounts <> [] -> Nat.even (List.length accounts) = true ->
      root (tree (Balances (accounts ++ [a; a])))
      = root (tree (Balances (accounts ++ [a]))) /\
      tl (layers (tree (Balances (accounts ++ [a; a]))))
      = tl (layers (tree (Balances (accounts ++ [a]))))).
Proof.
  cbn zeta. split.
  - intros strings s Hne Heven.
    rewrite !(MerkleTree_new_fresh digest) by reflexivity.
    cbn [root layers props_data freshProps]. rewrite !workerBuildTree_cons.
    cbn [tl hashData]. rewrite !map_app. cbn [map].
    rewrite buildLoop_duplicate_last;
      [| destruct strings; [congruence | discriminate]
       | now rewrite length_map].
    split; [|reflexivity]. apply lastLayerHead_upper.
    rewrite buildLoop_long by (rewrite length_app, length_map;
                               destruct strings; [congruence | cbn; lia]).
    discriminate.
  - intros accounts a Hne Heven.
    rewrite !(MerkleTree_new_fresh digest) by reflexivity.
    cbn [root layers props_data freshProps]. rewrite !workerBuildTree_cons.
    cbn [tl hashData]. rewrite !map_app. cbn [map].
    rewrite buildLoop_duplicate_last;
      [| destruct accounts; [congruence | discriminate]
       | now rewrite length_map].
    split; [|reflexivity]. apply lastLayerHead_upper.
    rewrite buildLoop_long by (rewrite length_app, length_map;
                               destruct accounts; [congruence | cbn; lia]).
    discriminate.
Qed.

Lemma div2_pred_odd (n : nat) :
  Nat.odd n = true -> Nat.div2 (n - 1) = Nat.div2 n.
Proof.
  intros Hodd. destruct (div2_cases n) as [[_ E]|[H _]]; [|congruence].
  destruct (div2_cases (n - 1)) as [[_ E']|[_ E']]; lia.
Qed.

(** X7. In a fresh tree with an odd number of leaves, the index just
    past the last leaf is answered with a proof that verifies the last
    leaf against the root. *)
Theorem index_past_end_verifies (props : MerkleTreeProps) (leaf : string) :
  precomputed props = false ->
  let t := MerkleTree_new digest props in
  let n := List.length (leaves t) in
  Nat.odd n = true ->
  nth_error (leaves t) (n - 1) = Some leaf ->
  nth_error (leaves t) n = None /\
  verifyLeaf digest leaf (getProof (Z.of_nat n) (layers t)) (root t) = true.
Proof.
  intros Hfresh t n. subst n t.
  rewrite (MerkleTree_new_fresh digest props Hfresh).
  cbn [leaves layers root]. set (cur := hashData digest (props_data props)).
  intros Hodd Hlast. split; [apply nth_error_None; lia |].
  unfold verifyLeaf, getProof. rewrite workerBuildTree_cons.
  destruct (Nat.le_gt_cases (List.length cur) 1) as [Hshort|Hlong].
  - rewrite buildLoop_short by exact Hshort.
    destruct cur as [|x [|y rest]]; try discriminate Hodd;
      [| cbn in Hshort; lia].
    cbn in Hlast. injection Hlast as ->. cbn. apply String.eqb_refl.
  - rewrite buildLoop_long by exact Hlong.
    set (nl := nextLayer (hashPair digest) cur).
    rewrite lastLayerHead_cons, getProof_loop_cons.
    cbn [fold_left]. rewrite JS_floor_div_nat.
    assert (Hstep : verifyStep digest leaf
                      (proofStep cur (Z.of_nat (List.length cur)))
                    = verifyStep digest leaf
                        (proofStep cur (Z.of_nat (List.length cur - 1)))).
    { rewrite !proofStep_nat. rewrite Hodd.
      assert (Heven : Nat.odd (List.length cur - 1) = false).
      { destruct (div2_cases (List.length cur)) as [[_ E]|[H _]];
          [|congruence].
        destruct (div2_cases (List.length cur - 1)) as [[_ E']|[H' _]];
          [lia | exact H']. }
      rewrite Heven.
      destruct (Nat.ltb_spec (List.length cur - 1) (List.length cur)); [|lia].
      destruct (Nat.ltb_spec (List.length cur - 1 + 1) (List.length cur));
        [lia |].
      rewrite Hlast. reflexivity. }
    rewrite Hstep, <- (div2_pred_odd _ Hodd).
    rewrite (verify_reaches_root digest nl (Nat.div2 (List.length cur - 1))
               (verifyStep digest leaf
                  (proofStep cur (Z.of_nat (List.length cur - 1))))).
    + apply String.eqb_refl.
    + now apply verifyStep_parent.
Qed.

End SelfPairing.

(* ===================================================================== *)
(** ** Further properties: canonical strings and input validation *)
(* ===================================================================== *)

Lemma length_append (a b : string) :
  String.length (a ++ b) = String.length a + String.length b.
Proof.
  induction a as [|c a IH]; [reflexivity |]. cbn. now rewrite IH.
Qed.

(** X8. The canonical string does not determine the account: moving the
    text after a colon of the identifier to the front of the first asset
    name gives a different account with the same string, hence the same
    leaf for every digest function. *)
Theorem canonical_string_ambiguous (digest : list byte -> string)
        (id x a : string) (n : Z) (rest : list Balance) :
  let first := {| identifier := id ++ ":" ++ x;
                  balances := {| asset := a; balance := n |} :: rest |} in
  let second := {| identifier := id;
                   balances := {| asset := x ++ ":" ++ a; balance := n |}
                                 :: rest |} in
  first <> second /\
  stringifyAccounts [first] = stringifyAccounts [second] /\
  hashData digest (Balances [first]) = hashData digest (Balances [second]).
Proof.
  cbn zeta.
  assert (Hs : stringifyAccounts
                 [{| identifier := id ++ ":" ++ x;
                     balances := {| asset := a; balance := n |} :: rest |}]
               = stringifyAccounts
                   [{| identifier := id;
                       balances := {| asset := x ++ ":" ++ a; balance := n |}
                                     :: rest |}]).
  { rewrite !stringifyAccounts_canonical. cbn [map]. f_equal.
    unfold canonicalRecord. cbn [identifier balances canonicalBalances asset
                                 balance].
    destruct rest as [|b rest]; rewrite !append_assoc; reflexivity. }
  split; [|split].
  - intros Heq. injection Heq as Hid _.
    apply (f_equal String.length) in Hid.
    rewrite !length_append in Hid. cbn in Hid. lia.
  - exact Hs.
  - cbn [hashData map]. now rewrite Hs.
Qed.

(** *** [checkAccountType] *)

Lemma checkBalances_accepts (items : list json) :
  checkBalances items = Accepted <-> exists bs, asBalances items = Some bs.
Proof.
  induction items as [|v items IH].
  - split; [now exists [] | reflexivity].
  - cbn [asBalances]. unfold asBalance.
    destruct v as [| b | z | s | l | fields];
      try (cbn; split; [discriminate | intros [bs H]; discriminate H]).
    cbn [checkBalances getProperty].
    destruct (lookup fields "asset") as [[| ? | ? | sa | ? | ?]|];
      try (cbn; split; [discriminate | intros [bs H]; discriminate H]).
    destruct (lookup fields "balance") as [[| ? | zb | ? | ? | ?]|];
      try (cbn; split; [discriminate | intros [bs H]; discriminate H]).
    cbn. rewrite IH. split.
    + intros [bs H]. rewrite H. now eexists.
    + intros [bs H]. destruct (asBalances items) as [bs'|];
        [now exists bs' | discriminate H].
Qed.

Lemma checkAccounts_accepts (items : list json) :
  checkAccounts items = Accepted
  <-> exists accounts, asAccountList items = Some accounts.
Proof.
  induction items as [|v items IH].
  - split; [now exists [] | reflexivity].
  - cbn [asAccountList]. unfold asAccount.
    destruct v as [| b | z | s | l | fields];
      try (cbn; split; [discriminate | intros [bs H]; discriminate H]).
    cbn [checkAccounts getProperty].
    destruct (lookup fields "identifier") as [[| ? | ? | si | ? | ?]|];
      try (cbn; split; [discriminate | intros [bs H]; discriminate H]).
    destruct (lookup fields "balances") as [[| ? | ? | ? | lb | ?]|];
      try (cbn; split; [discriminate | intros [bs H]; discriminate H]).
    cbn [typeof String.eqb Ascii.eqb Bool.eqb negb andb option_map].
    pose proof (checkBalances_accepts lb) as Hb.
    destruct (checkBalances lb) eqn:Ec.
    + destruct (proj1 Hb eq_refl) as [bs Hbs]. rewrite Hbs.
      cbn [option_map]. rewrite IH. split.
      * intros [accs H]. rewrite H. now eexists.
      * intros [accs H]. destruct (asAccountList items) as [accs'|];
          [now exists accs' | discriminate H].
    + split; [discriminate |]. intros [accs H].
      destruct (asBalances lb) as [bs|] eqn:Ebs.
      * assert (Rejected message = Accepted) by (apply Hb; now exists bs).
        discriminate.
      * discriminate H.
    + split; [discriminate |]. intros [accs H].
      destruct (asBalances lb) as [bs|] eqn:Ebs.
      * assert (TypeErrorThrown = Accepted) by (apply Hb; now exists bs).
        discriminate.
      * discriminate H.
Qed.

(** X9. [checkAccountType] returns [undefined] exactly for the arrays
    whose every element has the fields [stringifyAccounts] reads, with
    the types it expects: a string identifier and an array of balances
    with a string asset and a number balance. *)
Theorem checkAccountType_accepts (data : json) :
  checkAccountType data = Accepted
  <-> exists accounts, asAccounts data = Some accounts.
Proof.
  destruct data as [| b | z | s | items | fields];
    try (cbn; split; [discriminate | intros [a H]; discriminate H]).
  apply checkAccounts_accepts.
Qed.

Lemma asBalances_toJSON (bs : list Balance) :
  asBalances (map Balance_toJSON bs) = Some bs.
Proof.
  induction bs as [|[a n] bs IH]; [reflexivity |].
  cbn [map asBalances]. rewrite IH. reflexivity.
Qed.

Lemma asAccountList_toJSON (accounts : list Account) :
  asAccountList (map Account_toJSON accounts) = Some accounts.
Proof.
  induction accounts as [|[i bs] accounts IH]; [reflexivity |].
  cbn [map asAccountList]. rewrite IH.
  unfold asAccount, Account_toJSON. cbn [getProperty lookup identifier
    balances String.eqb Ascii.eqb Bool.eqb].
  rewrite asBalances_toJSON. reflexivity.
Qed.

Lemma checkAccounts_app (l1 l2 : list json) :
  checkAccounts (l1 ++ l2)
  = match checkAccounts l1 with
    | Accepted => checkAccounts l2
    | stopped => stopped
    end.
Proof.
  induction l1 as [|v l1 IH]; [reflexivity |].
  cbn [app]. destruct v as [| b | z | s | l | fields]; try reflexivity.
  cbn [checkAccounts].
  destruct (negb _); [reflexivity |].
  destruct (getProperty (JObject fields) "balances")
    as [[| ? | ? | ? | lb | ?]|]; try reflexivity.
  destruct (checkBalances lb); [exact IH | reflexivity | reflexivity].
Qed.

Lemma checkBalances_app (l1 l2 : list json) :
  checkBalances (l1 ++ l2)
  = match checkBalances l1 with
    | Accepted => checkBalances l2
    | stopped => stopped
    end.
Proof.
  induction l1 as [|v l1 IH]; [reflexivity |].
  cbn [app]. destruct v as [| b | z | s | l | fields]; try reflexivity.
  cbn [checkBalances]. destruct (_ || _); [reflexivity | exact IH].
Qed.

(** X11. A [null] entry makes [checkAccountType] throw instead of
    returning a message, be it a [null] account or a [null] balance,
    whatever valid accounts come before it and whatever follows. *)
Theorem checkAccountType_null_throws (good : list Account)
        (rest : list json) (i : string) (bs : list Balance)
        (more : list json) :
  checkAccountType (JArray (map Account_toJSON good ++ JNull :: rest))
  = TypeErrorThrown /\
  checkAccountType
    (JArray (map Account_toJSON good
             ++ JObject [("identifier", JString i);
                         ("balances",
                          JArray (map Balance_toJSON bs ++ JNull :: more))]
             :: rest))
  = TypeErrorThrown.
Proof.
  assert (Hgood : checkAccounts (map Account_toJSON good) = Accepted).
  { apply checkAccounts_accepts. exists good. apply asAccountList_toJSON. }
  assert (Hbs : checkBalances (map Balance_toJSON bs) = Accepted).
  { apply checkBalances_accepts. exists bs. apply asBalances_toJSON. }
  cbn [checkAccountType]. rewrite !checkAccounts_app, Hgood. split.
  - reflexivity.
  - cbn [checkAccounts getProperty lookup String.eqb Ascii.eqb Bool.eqb
         typeof negb].
    rewrite checkBalances_app, Hbs. reflexivity.
Qed.

(* ===================================================================== *)
(** ** Further properties: digests, letter case and binding *)
(* ===================================================================== *)

Lemma hex_digit_upcase (c : ascii) :
  JS.hex_digit (upcase_hex_char c) = JS.hex_digit c.
Proof.
  destruct c as [[] [] [] [] [] [] [] []]; vm_compute; reflexivity.
Qed.

Lemma same_digits_refl (s : string) : same_digits s s.
Proof. induction s as [|c s IH]; cbn; auto. Qed.

Lemma hex_pairs_same_digits (s : string) :
  forall s', same_digits s s' -> JS.hex_pairs s = JS.hex_pairs s'.
Proof.
  induction s as [s IH] using (well_founded_induction
    (Wf_nat.well_founded_ltof _ String.length)).
  intros s' H. destruct s as [|a [|b rest]]; destruct s' as [|a' [|b' rest']];
    cbn in H; try tauto; try reflexivity.
  destruct H as [Ha [Hb Hrest]]. cbn [JS.hex_pairs].
  rewrite Ha, Hb. destruct (JS.hex_digit a'); [|reflexivity].
  destruct (JS.hex_digit b'); [|reflexivity].
  f_equal. apply IH; [|exact Hrest]. unfold Wf_nat.ltof. cbn. lia.
Qed.

Lemma recased_char_refl (b : ascii) : recased_char b b.
Proof. now left. Qed.

Lemma recased_char_upcase (b : ascii) : recased_char b (upcase_hex_char b).
Proof.
  destruct b as [[] [] [] [] [] [] [] []];
    first [ left; reflexivity
          | right; vm_compute; repeat split; reflexivity ].
Qed.

Lemma recased_refl (s : string) : recased s s.
Proof.
  induction s as [|c s IH]; cbn; auto using recased_char_refl.
Qed.

Lemma recased_upcase (s : string) : recased s (upcase_hex s).
Proof.
  induction s as [|c s IH]; cbn [upcase_hex recased]; [exact I |].
  split; [apply recased_char_upcase | exact IH].
Qed.

Lemma recased_app (a a' b b' : string) :
  recased a a' -> recased b b' -> recased (a ++ b) (a' ++ b').
Proof.
  revert a'. induction a as [|c a IH]; intros [|c' a'] Ha Hb;
    cbn in Ha; try contradiction; cbn [append recased].
  - exact Hb.
  - destruct Ha as [Hc Ha]. split; [exact Hc | now apply IH].
Qed.

(** Recasing changes neither which bytes continue a sequence nor the
    bytes above 127. *)
Lemma recased_char_high (b b' : ascii) :
  recased_char b b' -> (128 <= N_of_ascii b)%N -> b' = b.
Proof. intros [->|[H _]] Hge; [reflexivity | lia]. Qed.

Lemma recased_char_continuation (b b' : ascii) :
  recased_char b b' ->
  JS.is_continuation b' = JS.is_continuation b /\
  (JS.is_continuation b = true -> b' = b).
Proof.
  intros [->|[H [H' _]]]; [split; reflexivity |].
  unfold JS.is_continuation.
  destruct (N.leb_spec 128 (N_of_ascii b)); [lia |].
  destruct (N.leb_spec 128 (N_of_ascii b')); [lia |].
  split; [reflexivity | discriminate].
Qed.

Lemma same_digits_units (p l l' : list N) :
  same_digits (string_of_list_ascii (map JS.low_byte l))
              (string_of_list_ascii (map JS.low_byte l')) ->
  same_digits (string_of_list_ascii (map JS.low_byte (p ++ l)))
              (string_of_list_ascii (map JS.low_byte (p ++ l'))).
Proof.
  intros H. induction p as [|u p IH]; [exact H |].
  cbn [app map string_of_list_ascii same_digits]. split; [reflexivity |].
  exact IH.
Qed.

(** The low bytes of the code units of a recased string have the same
    hexadecimal values. *)
Lemma low_bytes_recased (n : nat) :
  forall s s',
    String.length s <= n -> recased s s' ->
    same_digits (JS.low_bytes s) (JS.low_bytes s').
Proof.
  induction n as [|n IHn]; intros s s' Hlen H.
  - destruct s; [|cbn in Hlen; lia]. destruct s'; [exact I | contradiction].
  - destruct s as [|b0 s1]; destruct s' as [|b0' s1']; try contradiction;
      [exact I |].
    destruct H as [H0 H1]. cbn [String.length] in Hlen.
    assert (IH1 : same_digits (JS.low_bytes s1) (JS.low_bytes s1'))
      by (apply IHn; [lia | exact H1]).
    unfold JS.low_bytes in *. cbn [JS.code_units].
    destruct (N.ltb_spec (N_of_ascii b0) 128) as [Hlt|Hge].
    + assert (Hlt' : (N_of_ascii b0' < 128)%N)
        by (destruct H0 as [->|[_ [? _]]]; assumption).
      destruct (N.ltb_spec (N_of_ascii b0') 128); [|lia].
      cbn [map string_of_list_ascii same_digits]. rewrite !low_byte_ascii.
      split; [|exact IH1].
      destruct H0 as [->|[_ [_ E]]]; [reflexivity | exact E].
    + rewrite (recased_char_high _ _ H0 Hge).
      destruct (N.ltb_spec (N_of_ascii b0) 128); [lia |].
      assert (Hfall : same_digits
                (string_of_list_ascii
                   (map JS.low_byte (JS.replacement :: JS.code_units s1)))
                (string_of_list_ascii
                   (map JS.low_byte (JS.replacement :: JS.code_units s1'))))
        by (apply (same_digits_units [JS.replacement]); exact IH1).
      destruct (JS.sequence_length (N_of_ascii b0)) as [|[|[|[|[|k]]]]];
        try exact Hfall.
      * (* two bytes *)
        destruct s1 as [|b1 s2]; destruct s1' as [|b1' s2'];
          try contradiction; try exact Hfall.
        destruct H1 as [R1 H2].
        destruct (recased_char_continuation _ _ R1) as [E1 B1].
        rewrite E1. destruct (JS.is_continuation b1); [|exact Hfall].
        rewrite (B1 eq_refl).
        apply (same_digits_units [_]). apply IHn; [cbn in Hlen; lia |].
        exact H2.
      * (* three bytes *)
        destruct s1 as [|b1 [|b2 s3]]; destruct s1' as [|b1' [|b2' s3']];
          try contradiction; try exact Hfall;
          try (destruct H1 as [_ H1]; contradiction).
        destruct H1 as [R1 [R2 H3]].
        destruct (recased_char_continuation _ _ R1) as [E1 B1].
        destruct (recased_char_continuation _ _ R2) as [E2 B2].
        rewrite E1, E2.
        destruct (JS.is_continuation b1); [|exact Hfall].
        destruct (JS.is_continuation b2); [|exact Hfall].
        rewrite (B1 eq_refl), (B2 eq_refl). cbn [andb].
        apply (same_digits_units [_]). apply IHn; [cbn in Hlen; lia |].
        exact H3.
      * (* four bytes *)
        destruct s1 as [|b1 [|b2 [|b3 s4]]];
          destruct s1' as [|b1' [|b2' [|b3' s4']]];
          try contradiction; try exact Hfall;
          try (destruct H1 as [_ H1]; try contradiction;
               destruct H1 as [_ H1]; contradiction).
        destruct H1 as [R1 [R2 [R3 H4]]].
        destruct (recased_char_continuation _ _ R1) as [E1 B1].
        destruct (recased_char_continuation _ _ R2) as [E2 B2].
        destruct (recased_char_continuation _ _ R3) as [E3 B3].
        rewrite E1, E2, E3.
        destruct (JS.is_continuation b1); [|exact Hfall].
        destruct (JS.is_continuation b2); [|exact Hfall].
        destruct (JS.is_continuation b3); [|exact Hfall].
        rewrite (B1 eq_refl), (B2 eq_refl), (B3 eq_refl). cbn [andb].
        apply same_digits_units. apply IHn; [cbn in Hlen; lia |].
        exact H4.
Qed.

Lemma Buffer_from_hex_recased (s s' : string) :
  recased s s' -> JS.Buffer_from_hex s = JS.Buffer_from_hex s'.
Proof.
  intros H. unfold JS.Buffer_from_hex. apply hex_pairs_same_digits.
  now apply (low_bytes_recased (String.length s)).
Qed.

Section DigestProperties.

Variable digest : list byte -> string.

Lemma verifyStep_upcase (computedHash : string) (step : ProofStep) :
  verifyStep digest computedHash (upcase_step step)
  = verifyStep digest computedHash step.
Proof.
  destruct step as [[s|] d]; [|reflexivity].
  unfold verifyStep, upcase_step, hashPair.
  cbn [sibling direction option_map JS.toString].
  destruct d; f_equal; symmetry; apply Buffer_from_hex_recased;
    apply recased_app;
    (apply recased_refl || apply recased_upcase).
Qed.

(** X12. Verification does not see the letter case of the siblings: a
    proof whose sibling digests have been rewritten with capital letters
    is accepted or refused exactly as the original. *)
Theorem verifyLeaf_ignores_case (leaf : string) (proof : list ProofStep)
        (root : JS.value) :
  verifyLeaf digest leaf (map upcase_step proof) root
  = verifyLeaf digest leaf proof root.
Proof.
  unfold verifyLeaf. f_equal.
  assert (H : forall c, fold_left (verifyStep digest)
                                  (map upcase_step proof) c
                        = fold_left (verifyStep digest) proof c).
  { induction proof as [|s p IH]; intros c; [reflexivity |].
    cbn [map fold_left]. now rewrite verifyStep_upcase, IH. }
  now rewrite H.
Qed.

End DigestProperties.

(** *** Decoding digests *)

Lemma hex_digit_bound (c : ascii) (h : N) :
  JS.hex_digit c = Some h -> (h < 16)%N.
Proof.
  unfold JS.hex_digit.
  destruct (N.leb_spec 48 (N_of_ascii c)), (N.leb_spec (N_of_ascii c) 57);
    cbn [andb]; try (intros [= <-]; lia);
    destruct (N.leb_spec 97 (N_of_ascii c)),
             (N.leb_spec (N_of_ascii c) 102);
    cbn [andb]; try (intros [= <-]; lia);
    destruct (N.leb_spec 65 (N_of_ascii c)), (N.leb_spec (N_of_ascii c) 70);
    cbn [andb]; try (intros [= <-]; lia); discriminate.
Qed.

Lemma lower_hex_char_digit (c : ascii) :
  lower_hex_char c = true ->
  exists h, JS.hex_digit c = Some h /\
            N_of_ascii c = (if (h <? 10)%N then 48 + h else 87 + h)%N.
Proof.
  unfold lower_hex_char, JS.hex_digit.
  destruct (N.leb_spec 48 (N_of_ascii c)), (N.leb_spec (N_of_ascii c) 57);
    cbn [andb orb].
  1: { intros _. eexists. split; [reflexivity |].
       destruct (N.ltb_spec (N_of_ascii c - 48) 10); lia. }
  all: destruct (N.leb_spec 97 (N_of_ascii c)),
                (N.leb_spec (N_of_ascii c) 102);
    cbn [andb]; try discriminate; intros _; eexists;
    (split; [reflexivity |]);
    destruct (N.ltb_spec (N_of_ascii c - 87) 10); lia.
Qed.

Lemma lower_hex_char_inj (c c' : ascii) :
  lower_hex_char c = true -> lower_hex_char c' = true ->
  JS.hex_digit c = JS.hex_digit c' -> c = c'.
Proof.
  intros Hc Hc' Heq.
  destruct (lower_hex_char_digit c Hc) as [h [Hh Hn]].
  destruct (lower_hex_char_digit c' Hc') as [h' [Hh' Hn']].
  assert (h = h') by congruence. subst h'.
  rewrite <- (ascii_N_embedding c), <- (ascii_N_embedding c').
  congruence.
Qed.

Lemma byte_of_nibbles_inj (h l h' l' : N) :
  (h < 16)%N -> (l < 16)%N -> (h' < 16)%N -> (l' < 16)%N ->
  JS.byte_of_nibbles h l = JS.byte_of_nibbles h' l' -> h = h' /\ l = l'.
Proof.
  intros Hh Hl Hh' Hl'. unfold JS.byte_of_nibbles.
  destruct (Byte.of_N (16 * h + l)) as [b|] eqn:E.
  2: { apply Byte.of_N_None_iff in E. lia. }
  destruct (Byte.of_N (16 * h' + l')) as [b'|] eqn:E'.
  2: { apply Byte.of_N_None_iff in E'. lia. }
  intros <-. apply Byte.to_of_N in E, E'. lia.
Qed.

Lemma hex_pairs_app_inj (a : string) :
  forall a' b b',
    lower_hex_pairs a = true -> lower_hex_pairs a' = true ->
    String.length a = String.length a' ->
    JS.hex_pairs (a ++ b) = JS.hex_pairs (a' ++ b') ->
    a = a' /\ JS.hex_pairs b = JS.hex_pairs b'.
Proof.
  induction a as [a IH] using (well_founded_induction
    (Wf_nat.well_founded_ltof _ String.length)).
  intros a' b b' Ha Ha' Hlen Heq.
  destruct a as [|x [|y rest]]; destruct a' as [|x' [|y' rest']];
    try discriminate Hlen; try discriminate Ha; try discriminate Ha'.
  - split; [reflexivity | exact Heq].
  - cbn [lower_hex_pairs] in Ha, Ha'.
    apply andb_prop in Ha as [Hxy Hrest].
    apply andb_prop in Hxy as [Hx Hy].
    apply andb_prop in Ha' as [Hxy' Hrest'].
    apply andb_prop in Hxy' as [Hx' Hy'].
    destruct (lower_hex_char_digit x Hx) as [hx [Ex _]].
    destruct (lower_hex_char_digit y Hy) as [hy [Ey _]].
    destruct (lower_hex_char_digit x' Hx') as [hx' [Ex' _]].
    destruct (lower_hex_char_digit y' Hy') as [hy' [Ey' _]].
    cbn [append JS.hex_pairs] in Heq.
    rewrite Ex, Ey, Ex', Ey' in Heq. injection Heq as Hbyte Htail.
    apply byte_of_nibbles_inj in Hbyte as [-> ->];
      eauto using hex_digit_bound.
    assert (x = x') by (apply lower_hex_char_inj; congruence).
    assert (y = y') by (apply lower_hex_char_inj; congruence).
    subst x' y'.
    destruct (IH rest) with (a' := rest') (b := b) (b' := b')
      as [-> Hb]; try assumption.
    + unfold Wf_nat.ltof. cbn. lia.
    + cbn in Hlen. lia.
    + split; [reflexivity | exact Hb].
Qed.

Lemma lower_hex_pairs_well_formed (s : string) :
  lower_hex_pairs s = true -> JS.well_formed_hex s = true.
Proof.
  induction s as [s IH] using (well_founded_induction
    (Wf_nat.well_founded_ltof _ String.length)).
  destruct s as [|x [|y rest]]; intros H; try reflexivity;
    try discriminate H.
  cbn [lower_hex_pairs] in H.
  apply andb_prop in H as [Hxy Hrest]. apply andb_prop in Hxy as [Hx Hy].
  destruct (lower_hex_char_digit x Hx) as [hx [Ex _]].
  destruct (lower_hex_char_digit y Hy) as [hy [Ey _]].
  cbn [JS.well_formed_hex]. rewrite Ex, Ey. apply IH; [|exact Hrest].
  unfold Wf_nat.ltof. cbn. lia.
Qed.

Lemma lower_hex_pairs_ascii (s : string) :
  lower_hex_pairs s = true -> JS.all_ascii s = true.
Proof.
  intros H. now apply well_formed_hex_ascii, lower_hex_pairs_well_formed.
Qed.

(** Decoding is injective on the first of two concatenated parts when
    both candidates for it are lower-case hexadecimal of one length. *)
Lemma Buffer_from_hex_app_inj (a a' b b' : string) :
  lower_hex_pairs a = true -> lower_hex_pairs a' = true ->
  String.length a = String.length a' ->
  JS.Buffer_from_hex (a ++ b) = JS.Buffer_from_hex (a' ++ b') ->
  a = a' /\ JS.Buffer_from_hex b = JS.Buffer_from_hex b'.
Proof.
  intros Ha Ha' Hlen. unfold JS.Buffer_from_hex.
  rewrite !low_bytes_ascii_app by (now apply lower_hex_pairs_ascii).
  now apply hex_pairs_app_inj.
Qed.

Lemma Buffer_from_hex_length (s : string) :
  lower_hex_pairs s = true ->
  2 * List.length (JS.Buffer_from_hex s) = String.length s.
Proof.
  intros Hs.
  rewrite Buffer_from_hex_well_formed
    by (now apply lower_hex_pairs_well_formed).
  revert Hs.
  induction s as [s IH] using (well_founded_induction
    (Wf_nat.well_founded_ltof _ String.length)).
  destruct s as [|x [|y rest]]; intros H; try reflexivity;
    try discriminate H.
  cbn [lower_hex_pairs] in H.
  apply andb_prop in H as [Hxy Hrest]. apply andb_prop in Hxy as [Hx Hy].
  destruct (lower_hex_char_digit x Hx) as [hx [Ex _]].
  destruct (lower_hex_char_digit y Hy) as [hy [Ey _]].
  cbn [JS.hex_pairs]. rewrite Ex, Ey.
  cbn [List.length String.length].
  rewrite <- (IH rest); [lia | unfold Wf_nat.ltof; cbn; lia | exact Hrest].
Qed.

Lemma is_digest_parts (s : string) :
  is_digest s = true ->
  String.length s = 64 /\ lower_hex_pairs s = true.
Proof.
  unfold is_digest. intros H. apply andb_prop in H as [H1 H2].
  apply Nat.eqb_eq in H1. split; assumption.
Qed.

Section DigestFormat.

Variable digest : list byte -> string.

(** The digest function returns 64 lower-case hexadecimal characters. *)
Hypothesis digest_format : forall data, is_digest (digest data) = true.

Lemma nextLayer_digests (l : list string) :
  Forall (fun node => is_digest node = true) (nextLayer (hashPair digest) l).
Proof.
  induction l as [| a | a b rest IH] using list_pair_ind;
    cbn [nextLayer]; repeat constructor; try apply digest_format.
  exact IH.
Qed.

Lemma buildLoop_digests (currentLayer : list string) :
  Forall (Forall (fun node => is_digest node = true))
         (buildLoop (hashPair digest) currentLayer).
Proof.
  funelim (buildLoop (hashPair digest) currentLayer); simp buildLoop;
    try constructor.
  - apply nextLayer_digests.
  - exact H.
Qed.

Lemma hashData_digests (d : MerkleTreeData) :
  Forall (fun node => is_digest node = true) (hashData digest d).
Proof.
  destruct d; cbn [hashData]; apply Forall_map, Forall_forall;
    intros x _; apply digest_format.
Qed.

Lemma fresh_layers_digests (props : MerkleTreeProps) :
  precomputed props = false ->
  Forall (Forall (fun node => is_digest node = true))
         (layers (MerkleTree_new digest props)).
Proof.
  intros Hfresh. rewrite (MerkleTree_new_fresh digest props Hfresh).
  cbn [layers]. rewrite workerBuildTree_cons. constructor.
  - apply hashData_digests.
  - apply buildLoop_digests.
Qed.

Lemma hashPair_digests (l r : string) :
  is_digest l = true ->
  hashPair digest l r
  = digest (JS.Buffer_from_hex l ++ JS.Buffer_from_hex r)%list /\
  List.length (JS.Buffer_from_hex l) = 32.
Proof.
  intros Hl. destruct (is_digest_parts l Hl) as [Hlen Hhex]. split.
  - unfold hashPair. rewrite Buffer_from_hex_app; [reflexivity |].
    now apply lower_hex_pairs_well_formed.
  - pose proof (Buffer_from_hex_length l Hhex). lia.
Qed.

(** X13. When the digest function returns 64 lower-case hexadecimal
    characters, every node of a fresh tree and its root are such digests,
    and every parent is the digest of 64 bytes: the 32 bytes of its left
    child followed by the 32 bytes of its right child (the left child
    again when the right one is missing). *)
Theorem fresh_tree_nodes_are_digests (props : MerkleTreeProps) :
  precomputed props = false ->
  let t := MerkleTree_new digest props in
  (forall layer node,
      In layer (layers t) -> In node layer -> is_digest node = true) /\
  (forall r, root t = Some r -> is_digest r = true) /\
  (forall i layer next j parent,
      nth_error (layers t) i = Some layer ->
      nth_error (layers t) (S i) = Some next ->
      nth_error next j = Some parent ->
      exists l r,
        nth_error layer (2 * j) = Some l /\
        r = match nth_error layer (2 * j + 1) with
            | Some y => y
            | None => l
            end /\
        parent = digest (JS.Buffer_from_hex l ++ JS.Buffer_from_hex r)%list /\
        List.length (JS.Buffer_from_hex l) = 32 /\
        List.length (JS.Buffer_from_hex r) = 32).
Proof.
  intros Hfresh t.
  pose proof (fresh_layers_digests props Hfresh) as Hall. fold t in Hall.
  assert (Hnodes : forall layer node,
             In layer (layers t) -> In node layer -> is_digest node = true).
  { intros layer node Hl Hn. rewrite Forall_forall in Hall.
    specialize (Hall layer Hl). rewrite Forall_forall in Hall.
    now apply Hall. }
  split; [exact Hnodes |]. split.
  - intros r Hr. subst t.
    rewrite (MerkleTree_new_fresh digest props Hfresh) in *.
    cbn [root layers] in *. rewrite lastLayerHead_last in Hr.
    apply nth_error_In in Hr.
    apply (Hnodes (last (workerBuildTree digest
                           (hashData digest (props_data props))) []));
      [|exact Hr].
    rewrite workerBuildTree_cons.
    set (ls := hashData digest (props_data props) :: _).
    rewrite (app_removelast_last (l := ls) []) at 2 by discriminate.
    apply in_or_app. right. left. reflexivity.
  - intros i layer next j parent Hl Hn Hp.
    assert (Hnext : next = nextLayer (hashPair digest) layer).
    { subst t. rewrite (MerkleTree_new_fresh digest props Hfresh) in Hl, Hn.
      cbn [layers] in Hl, Hn. rewrite workerBuildTree_cons in Hl, Hn.
      now destruct (layers_consecutive _ _ _ _ _ Hl Hn). }
    subst next.
    destruct (nextLayer_nth (hashPair digest) layer j) as [l [Hx Hpar]].
    { apply nth_error_Some. congruence. }
    rewrite Hpar in Hp. injection Hp as <-.
    assert (Hdl : is_digest l = true).
    { apply (Hnodes layer); [now apply nth_error_In in Hl |].
      now apply nth_error_In in Hx. }
    set (r := match nth_error layer (2 * j + 1) with
              | Some y => y
              | None => l
              end).
    assert (Hdr : is_digest r = true).
    { subst r. destruct (nth_error layer (2 * j + 1)) as [y|] eqn:E;
        [|exact Hdl].
      apply (Hnodes layer); [now apply nth_error_In in Hl |].
      now apply nth_error_In in E. }
    exists l, r. split; [exact Hx |]. split; [reflexivity |].
    destruct (hashPair_digests l r Hdl) as [Hh Hlen].
    destruct (hashPair_digests r r Hdr) as [_ Hlenr].
    repeat split; assumption.
Qed.

Lemma verifyStep_stepInput (c : string) (step : ProofStep) :
  verifyStep digest c step = digest (stepInput c step).
Proof. unfold verifyStep, stepInput, hashPair. now destruct (direction step). Qed.

(** One verification step binds its inputs, or digests two different
    byte sequences to the same value. *)
Lemma verifyStep_binds (c c' s s' : string) (d : Direction) :
  is_digest c = true -> is_digest c' = true ->
  is_digest s = true -> is_digest s' = true ->
  let st := {| sibling := Some s; direction := d |} in
  let st' := {| sibling := Some s'; direction := d |} in
  verifyStep digest c st = verifyStep digest c' st' ->
  (c = c' /\ s = s') \/
  (stepInput c st <> stepInput c' st' /\
   digest (stepInput c st) = digest (stepInput c' st')).
Proof.
  intros Hc Hc' Hs Hs' st st' Heq.
  destruct (is_digest_parts c Hc) as [Lc Pc].
  destruct (is_digest_parts c' Hc') as [Lc' Pc'].
  destruct (is_digest_parts s Hs) as [Ls Ps].
  destruct (is_digest_parts s' Hs') as [Ls' Ps'].
  rewrite !verifyStep_stepInput in Heq.
  destruct (list_eq_dec Byte.byte_eq_dec (stepInput c st) (stepInput c' st'))
    as [E|N]; [left | right; split; assumption].
  subst st st'. unfold stepInput in E.
  cbn [direction sibling JS.toString] in E.
  destruct d.
  - destruct (Buffer_from_hex_app_inj s s' c c' Ps Ps') as [-> Hb];
      [congruence | exact E |].
    rewrite <- (append_empty_r c), <- (append_empty_r c') in Hb.
    destruct (Buffer_from_hex_app_inj c c' EmptyString EmptyString Pc Pc')
      as [-> _]; [congruence | exact Hb |].
    split; reflexivity.
  - destruct (Buffer_from_hex_app_inj c c' s s' Pc Pc') as [-> Hb];
      [congruence | exact E |].
    rewrite <- (append_empty_r s), <- (append_empty_r s') in Hb.
    destruct (Buffer_from_hex_app_inj s s' EmptyString EmptyString Ps Ps')
      as [-> _]; [congruence | exact Hb |].
    split; reflexivity.
Qed.

Lemma verifyStep_is_digest (c : string) (step : ProofStep) :
  is_digest (verifyStep digest c step) = true.
Proof. rewrite verifyStep_stepInput. apply digest_format. Qed.

Lemma fold_binds (p : list ProofStep) :
  forall (p' : list ProofStep) (c c' : string),
    is_digest c = true -> is_digest c' = true ->
    digest_proof p = true -> digest_proof p' = true ->
    map direction p = map direction p' ->
    fold_left (verifyStep digest) p c = fold_left (verifyStep digest) p' c' ->
    (c = c' /\ p = p') \/ collide digest c c' p p'.
Proof.
  induction p as [|st p IH]; intros [|st' p'] c c' Hc Hc' Hp Hp' Hdir Heq;
    try discriminate Hdir.
  - left. split; [exact Heq | reflexivity].
  - cbn [fold_left] in Heq. cbn [map] in Hdir. injection Hdir as Hd Hdir.
    cbn [digest_proof forallb] in Hp, Hp'.
    apply andb_prop in Hp as [Hst Hp]. apply andb_prop in Hp' as [Hst' Hp'].
    destruct (IH p' _ _ (verifyStep_is_digest c st)
                 (verifyStep_is_digest c' st') Hp Hp' Hdir Heq)
      as [[Hstep ->]|[i [x [y [Hx [Hy Hxy]]]]]].
    2: { right. exists (S i), x, y. cbn [verifyInputs nth_error].
         repeat split; tauto. }
    destruct st as [[s|] d]; [|discriminate Hst].
    destruct st' as [[s'|] d']; [|discriminate Hst'].
    cbn [sibling direction] in *. subst d'.
    destruct (verifyStep_binds c c' s s' d Hc Hc' Hst Hst' Hstep)
      as [[-> ->]|[Hne Hsame]]; [left; split; reflexivity |].
    right. exists 0, (stepInput c {| sibling := Some s; direction := d |}),
                  (stepInput c' {| sibling := Some s'; direction := d |}).
    cbn [verifyInputs nth_error]. repeat split; assumption.
Qed.

(** X14. A root binds leaf and proof: if two leaves are accepted against
    the same root with proofs of the same directions, all values being
    digests, then the leaves and the proofs are equal, or at some step
    the two verifications digest two different byte sequences to the
    same value. *)
Theorem proof_binds_leaf (leaf leaf' : string) (p p' : list ProofStep)
        (root : JS.value) :
  is_digest leaf = true -> is_digest leaf' = true ->
  digest_proof p = true -> digest_proof p' = true ->
  map direction p = map direction p' ->
  verifyLeaf digest leaf p root = true ->
  verifyLeaf digest leaf' p' root = true ->
  (leaf = leaf' /\ p = p') \/ collide digest leaf leaf' p p'.
Proof.
  intros Hl Hl' Hp Hp' Hdir Hv Hv'. unfold verifyLeaf in Hv, Hv'.
  destruct root as [r|]; [|discriminate Hv].
  apply String.eqb_eq in Hv, Hv'.
  apply (fold_binds p p' leaf leaf' Hl Hl' Hp Hp' Hdir). congruence.
Qed.

End DigestFormat.

(** *** The format of SHA-256 digests *)

Lemma hex_char_lower (d : N) :
  (d < 16)%N -> lower_hex_char (Sha256.hex_char d) = true.
Proof.
  intros Hd. unfold lower_hex_char, Sha256.hex_char.
  destruct (N.ltb_spec d 10).
  - rewrite N_ascii_embedding by lia.
    destruct (N.leb_spec 48 (48 + d)), (N.leb_spec (48 + d) 57);
      try lia; reflexivity.
  - rewrite N_ascii_embedding by lia.
    destruct (N.leb_spec 48 (87 + d)), (N.leb_spec (87 + d) 57),
             (N.leb_spec 97 (87 + d)), (N.leb_spec (87 + d) 102);
      try lia; reflexivity.
Qed.

Lemma hex_word_lower (n : nat) (x : N) :
  lower_hex_pairs (Sha256.hex_word (2 * n) x) = true.
Proof.
  induction n as [|n IH]; [reflexivity |].
  replace (2 * S n) with (S (S (2 * n))) by lia.
  cbn [Sha256.hex_word lower_hex_pairs].
  rewrite !hex_char_lower by (apply N.mod_lt; discriminate).
  exact IH.
Qed.

Lemma hex_word_length (n : nat) (x : N) :
  String.length (Sha256.hex_word n x) = n.
Proof. induction n as [|n IH]; [reflexivity |]. cbn. now rewrite IH. Qed.

Lemma lower_hex_pairs_app (a b : string) :
  lower_hex_pairs a = true -> lower_hex_pairs b = true ->
  lower_hex_pairs (a ++ b) = true.
Proof.
  induction a as [a IH] using (well_founded_induction
    (Wf_nat.well_founded_ltof _ String.length)).
  destruct a as [|x [|y rest]]; intros Ha Hb; try discriminate Ha.
  - exact Hb.
  - cbn [lower_hex_pairs append] in *.
    apply andb_prop in Ha as [Hxy Hrest]. rewrite Hxy. cbn [andb].
    apply IH; [unfold Wf_nat.ltof; cbn; lia | exact Hrest | exact Hb].
Qed.

(** The digest of the platform is 64 lower-case hexadecimal characters. *)
Lemma sha256_is_digest (data : list byte) :
  is_digest (Sha256.digest_hex data) = true.
Proof.
  unfold Sha256.digest_hex, Sha256.hex_state.
  set (s := Sha256.blocks _ _ _). cbn [map String.concat].
  unfold is_digest. apply andb_true_intro. split.
  - apply Nat.eqb_eq. rewrite !length_append, !hex_word_length. reflexivity.
  - repeat (apply lower_hex_pairs_app;
            [first [exact (hex_word_lower 4 _) | reflexivity] |]).
    exact (hex_word_lower 4 _).
Qed.

(** X15. What follows the first invalid pair of characters is ignored: a
    left argument made of a well-formed part and then a character below
    128 that is no hexadecimal digit makes [hashPair] digest the bytes of
    the well-formed part alone, whatever follows and whatever the right
    argument; an [undefined] sibling on the right therefore contributes
    no byte. *)
Theorem hashPair_ignores_after_invalid (digest : list byte -> string)
        (l : string) (x : ascii) (rest r : string) :
  JS.well_formed_hex l = true ->
  (N_of_ascii x < 128)%N ->
  JS.hex_digit x = None ->
  hashPair digest (l ++ String x rest) r = digest (JS.Buffer_from_hex l) /\
  verifyStep digest l {| sibling := JS.undefined; direction := dir_right |}
  = digest (JS.Buffer_from_hex l).
Proof.
  intros Hwf Hascii Hx.
  assert (Hstop : forall (c : ascii) (tail : string),
             (N_of_ascii c < 128)%N -> JS.hex_digit c = None ->
             JS.Buffer_from_hex (l ++ String c tail) = JS.Buffer_from_hex l).
  { intros c tail Hc Hnone. rewrite Buffer_from_hex_app by exact Hwf.
    unfold JS.Buffer_from_hex at 2.
    rewrite low_bytes_cons_ascii by exact Hc.
    destruct (JS.low_bytes tail) as [|b t]; cbn [JS.hex_pairs];
      [apply app_nil_r |].
    rewrite Hnone. apply app_nil_r. }
  split.
  - unfold hashPair. rewrite append_assoc. cbn [append].
    now rewrite (Hstop x (rest ++ r) Hascii Hx).
  - unfold verifyStep, hashPair.
    cbn [direction sibling JS.toString JS.undefined].
    apply f_equal. apply (Hstop "u"%char "ndefined"%string); reflexivity.
Qed.

(* ===================================================================== *)
(** ** The further properties on concrete inputs *)
(* ===================================================================== *)

Lemma fresh_tree_structurallyValid_witness :
  structurallyValid abc = true.
Proof.
  apply (fresh_tree_structurallyValid sha256
           (freshProps (Generic ["a"; "b"; "c"]))).
  - reflexivity.
  - discriminate.
Defined.

Lemma fresh_tree_validates_witness :
  verifyTree sha256 abc = {| status := true; completed := 3; errors := 0 |}.
Proof.
  destruct (fresh_tree_validates sha256
              (freshProps (Generic ["a"; "b"; "c"])) eq_refl) as [H _].
  exact H.
Defined.

Lemma wrong_root_fails_everywhere_witness :
  verifyTree sha256
    (MerkleTree_new sha256
       {| props_data := data abc;
          props_leaves := Some (leaves abc);
          props_layers := Some (layers abc);
          props_root := Some Ha |})
  = {| status := false; completed := 0; errors := 3 |}.
Proof.
  apply (wrong_root_fails_everywhere sha256
           (freshProps (Generic ["a"; "b"; "c"])) Ha).
  - reflexivity.
  - discriminate.
  - discriminate.
  - vm_compute. discriminate.
Defined.

Lemma reconstruction_round_trip_witness :
  MerkleTree_new sha256
    {| props_data := data abc;
       props_leaves := Some (leaves abc);
       props_layers := Some (layers abc);
       props_root := root abc |}
  = abc.
Proof.
  apply (reconstruction_round_trip sha256
           (freshProps (Generic ["a"; "b"; "c"]))).
  reflexivity.
Defined.

Lemma worker_result_recomputed_witness :
  merkleTreeWorker sha256 (Generic ["a"; "b"; "c"]) = Pending /\
  (exists t : MerkleTree,
      generateMerkleTree sha256 [alice] = Resolved t /\
      status (verifyTree sha256 t) = true).
Proof.
  destruct (worker_result_recomputed sha256 [alice] "a" ["b"; "c"])
    as [[t [Ht [_ [_ [_ Hv]]]]] [Hpending _]].
  split; [exact Hpending |].
  exists t. split; [exact Ht | exact Hv].
Defined.

Lemma export_entries_verify_witness :
  List.length (export_leaves (MerkleTree_export abc)) = 3.
Proof.
  destruct (export_entries_verify sha256
              (freshProps (Generic ["a"; "b"; "c"])) eq_refl) as [_ [H _]].
  exact H.
Defined.

Lemma duplicate_last_record_same_root_witness :
  root (MerkleTree_new sha256 (freshProps (Generic ["a"; "b"; "c"; "c"])))
  = root abc.
Proof.
  destruct (duplicate_last_record_same_root sha256) as [H _].
  destruct (H ["a"; "b"] "c") as [Hroot _].
  - discriminate.
  - reflexivity.
  - exact Hroot.
Defined.

Lemma index_past_end_verifies_witness :
  nth_error (leaves abc) 3 = None /\
  verifyLeaf sha256 Hc (getProof 3 (layers abc)) (root abc) = true.
Proof.
  apply (index_past_end_verifies sha256
           (freshProps (Generic ["a"; "b"; "c"])) Hc).
  - reflexivity.
  - vm_compute. reflexivity.
  - vm_compute. reflexivity.
Defined.

Lemma canonical_string_ambiguous_witness :
  stringifyAccounts
    [ {| identifier := "ACC1:x";
         balances := [ {| asset := "eth"; balance := 5 |} ] |} ]
  = stringifyAccounts
      [ {| identifier := "ACC1";
           balances := [ {| asset := "x:eth"; balance := 5 |} ] |} ].
Proof.
  destruct (canonical_string_ambiguous sha256 "ACC1" "x" "eth" 5 [])
    as [_ [H _]].
  exact H.
Defined.

Lemma checkAccountType_accepts_witness :
  checkAccountType (JArray [Account_toJSON alice]) = Accepted.
Proof.
  apply (checkAccountType_accepts (JArray [Account_toJSON alice])).
  exists [alice]. reflexivity.
Defined.

Lemma checkAccountType_null_throws_witness :
  checkAccountType (JArray [Account_toJSON alice; JNull]) = TypeErrorThrown.
Proof.
  exact (proj1 (checkAccountType_null_throws [alice] [] "" [] [])).
Defined.

(** The proof of index 1 with capital letters is another proof, and it
    is accepted all the same. *)
Lemma verifyLeaf_ignores_case_witness :
  map upcase_step (getProof 1 (layers abc)) <> getProof 1 (layers abc) /\
  verifyLeaf sha256 Hb (map upcase_step (getProof 1 (layers abc))) (root abc)
  = verifyLeaf sha256 Hb (getProof 1 (layers abc)) (root abc).
Proof.
  split; [vm_compute; discriminate |].
  apply (verifyLeaf_ignores_case sha256).
Defined.

Lemma fresh_tree_nodes_are_digests_witness :
  root abc = Some Habcc /\ is_digest Habcc = true.
Proof.
  assert (Hroot : root abc = Some Habcc) by (vm_compute; reflexivity).
  split; [exact Hroot |].
  destruct (fresh_tree_nodes_are_digests sha256 sha256_is_digest
              (freshProps (Generic ["a"; "b"; "c"])) eq_refl) as [_ [H _]].
  exact (H Habcc Hroot).
Defined.

Lemma proof_binds_leaf_witness :
  (Hb = Hb /\ getProof 1 (layers abc) = getProof 1 (layers abc)) \/
  collide sha256 Hb Hb (getProof 1 (layers abc)) (getProof 1 (layers abc)).
Proof.
  apply (proof_binds_leaf sha256 sha256_is_digest Hb Hb
           (getProof 1 (layers abc)) (getProof 1 (layers abc)) (root abc));
    vm_compute; reflexivity.
Defined.

Lemma hashPair_ignores_after_invalid_witness :
  hashPair sha256 (Ha ++ "zz") Hb = sha256 (JS.Buffer_from_hex Ha).
Proof.
  destruct (hashPair_ignores_after_invalid sha256 Ha "z" "z" Hb) as [H _].
  - vm_compute. reflexivity.
  - reflexivity.
  - reflexivity.
  - exact H.
Defined.
